(** * Chad Session Builder: windowed segmentation and aggregate writer

    A shallow embedding of [app/chad_session_builder.js] and the properties
    of its time aligner, segmenter and aggregate writer.

    Conventions of the embedding.
    - A JavaScript [Date] is its time value: an integer number of
      milliseconds since the epoch, a [Z].  The time zone of the host, with
      its changes of offset, is a parameter of every function that reads or
      writes local fields ([getMinutes], [setMinutes]).
    - A device tag, the one string the program calls string methods on, is
      its sequence of UTF-16 code units; [String.prototype.toLowerCase] is a
      built-in of the host.  The other strings are only compared and
      concatenated.
    - A JavaScript value read from a row is a [jsval]; SQL NULL is [JNull].
    - The three relations the program names are the fields of [database];
      one [processTick] is one transaction: it returns the committed
      database, or the unchanged one after ROLLBACK. *)

From Stdlib Require Import ZArith List String Ascii Bool Lia Sorted.
From Stdlib Require Import DecimalString.
From Stdlib Require Import Permutation.
Import ListNotations.

Local Open Scope string_scope.
Local Open Scope list_scope.
Local Open Scope Z_scope.

(* ================================================================== *)
(** ** The Date built-ins the program calls (ECMA-262, Date objects)   *)
(* ================================================================== *)

Module JsDate.

Definition msPerSecond : Z := 1000.
Definition msPerMinute : Z := 60000.
Definition msPerHour : Z := 3600000.
Definition msPerDay : Z := 86400000.

Definition Day (t : Z) : Z := t / msPerDay.
Definition TimeWithinDay (t : Z) : Z := t mod msPerDay.
Definition HourFromTime (t : Z) : Z := (t / msPerHour) mod 24.
Definition MinFromTime (t : Z) : Z := (t / msPerMinute) mod 60.
Definition SecFromTime (t : Z) : Z := (t / msPerSecond) mod 60.
Definition msFromTime (t : Z) : Z := t mod msPerSecond.

Definition MakeTime (hour min sec ms : Z) : Z :=
  hour * msPerHour + min * msPerMinute + sec * msPerSecond + ms.

Definition MakeDate (day time : Z) : Z := day * msPerDay + time.

(** Proleptic Gregorian date of a day number (days since 1970-01-01):
    year, month (1..12) and day of the month (1..31). *)
Definition civilFromDays (day : Z) : Z * Z * Z :=
  let z := day + 719468 in
  let era := z / 146097 in
  let doe := z mod 146097 in
  let yoe := (doe - doe / 1460 + doe / 36524 - doe / 146096) / 365 in
  let doy := doe - (365 * yoe + yoe / 4 - yoe / 100) in
  let mp := (5 * doy + 2) / 153 in
  let d := doy - (153 * mp + 2) / 5 + 1 in
  let m := if mp <? 10 then mp + 3 else mp - 9 in
  let y := yoe + era * 400 in
  ((if m <=? 2 then y + 1 else y), m, d).

(** [n] written with exactly [w] decimal digits (low digits kept). *)
Fixpoint padded (w : nat) (n : Z) : string :=
  match w with
  | O => EmptyString
  | S w' =>
      (padded w' (n / 10)
       ++ String (ascii_of_nat (48 + Z.to_nat (n mod 10))) EmptyString)%string
  end.

Definition yearString (y : Z) : string :=
  if (0 <=? y) && (y <=? 9999) then padded 4 y
  else if y <? 0 then ("-" ++ padded 6 (- y))%string
  else ("+" ++ padded 6 y)%string.

(** [Date.prototype.toISOString]: the UTC fields, [YYYY-MM-DDTHH:mm:ss.sssZ]. *)
Definition toISOString (t : Z) : string :=
  let '(y, m, d) := civilFromDays (Day t) in
  (yearString y ++ "-" ++ padded 2 m ++ "-" ++ padded 2 d ++ "T"
   ++ padded 2 (HourFromTime t) ++ ":" ++ padded 2 (MinFromTime t) ++ ":"
   ++ padded 2 (SecFromTime t) ++ "." ++ padded 3 (msFromTime t) ++ "Z")%string.

(** The time zone of the host: the offset of local time from UTC, in
    milliseconds, that holds before the first transition, and the
    transitions in ascending order, each a UTC instant with the offset that
    holds from that instant on. *)
Record zone : Type := {
  baseOffset : Z;
  transitions : list (Z * Z)
}.

(** A zone whose offset never changes. *)
Definition fixed (tza : Z) : zone := {| baseOffset := tza; transitions := [] |}.

Definition utc : zone := fixed 0.

(** The offset in force at the UTC instant [t]. *)
Fixpoint offsetAtUTC (current : Z) (trs : list (Z * Z)) (t : Z) : Z :=
  match trs with
  | [] => current
  | (instant, next) :: rest =>
      if t <? instant then current else offsetAtUTC next rest t
  end.

(** The offset under which the local time value [tlocal] is read.  A local
    time that a transition repeats or skips is read with the offset before
    the transition. *)
Fixpoint offsetAtLocal (current : Z) (trs : list (Z * Z)) (tlocal : Z) : Z :=
  match trs with
  | [] => current
  | (instant, next) :: rest =>
      if tlocal <? instant + Z.max current next
      then current
      else offsetAtLocal next rest tlocal
  end.

Section LocalZone.

Variable tz : zone.

(** LocalTZA(t, isUTC) *)
Definition LocalTZA (t : Z) (isUTC : bool) : Z :=
  if isUTC
  then offsetAtUTC (baseOffset tz) (transitions tz) t
  else offsetAtLocal (baseOffset tz) (transitions tz) t.

Definition LocalTime (t : Z) : Z := t + LocalTZA t true.
Definition UTC (t : Z) : Z := t - LocalTZA t false.

(** [date.getMinutes()] *)
Definition getMinutes (t : Z) : Z := MinFromTime (LocalTime t).

(** [date.setMinutes(min, sec, ms)]: the new time value. *)
Definition setMinutes3 (t : Z) (min sec ms : Z) : Z :=
  let l := LocalTime t in
  UTC (MakeDate (Day l) (MakeTime (HourFromTime l) min sec ms)).

(** [date.setMinutes(min)]: seconds and milliseconds are kept. *)
Definition setMinutes1 (t : Z) (min : Z) : Z :=
  let l := LocalTime t in
  UTC (MakeDate (Day l)
         (MakeTime (HourFromTime l) min (SecFromTime l) (msFromTime l))).

End LocalZone.

End JsDate.

(* ================================================================== *)
(** ** Time aligner                                                    *)
(* ================================================================== *)

Module TimeAligner.
Import JsDate.

Section LocalZone.

Variable tz : zone.

(** [floorToQuarterHour(date)] *)
Definition floorToQuarterHour (date : Z) : Z :=
  let d := date in
  let minutes := (getMinutes tz d / 15) * 15 in
  setMinutes3 tz d minutes 0 0.

(** [quarterIndex(date)] *)
Definition quarterIndex (date : Z) : Z := getMinutes tz date / 15.

(** The mode of a tick: [(qIdx % 2 === 0) ? 'internal' : 'external'].
    [qIdx] is never negative, so [%] is [Z.rem] and agrees with [mod]. *)
Definition modeOfIndex (qIdx : Z) : string :=
  if Z.rem qIdx 2 =? 0 then "internal" else "external".

Definition modeFor (tickTime : Z) : string := modeOfIndex (quarterIndex tickTime).

(** [msUntilNextQuarter()], with the clock reading [now] made explicit. *)
Definition msUntilNextQuarter (now : Z) : Z :=
  let next := floorToQuarterHour now in
  let next := setMinutes1 tz next (getMinutes tz next + 15) in
  next - now.

End LocalZone.

End TimeAligner.

(* ================================================================== *)
(** ** JavaScript values and the operators the program applies to them *)
(* ================================================================== *)

Module Js.

(** A value read from a column or produced by [?.]: [undefined], [null]
    (SQL NULL), an integer number, or a string. *)
Inductive jsval : Type :=
| JUndefined
| JNull
| JNum (n : Z)
| JStr (s : string).

(** ToBoolean *)
Definition truthy (v : jsval) : bool :=
  match v with
  | JUndefined | JNull => false
  | JNum n => negb (n =? 0)
  | JStr s => negb (String.eqb s "")
  end.

(** [a || b] *)
Definition orElse (a b : jsval) : jsval := if truthy a then a else b.

(** [a === b] *)
Definition strictEq (a b : jsval) : bool :=
  match a, b with
  | JUndefined, JUndefined => true
  | JNull, JNull => true
  | JNum n, JNum m => n =? m
  | JStr s, JStr t => String.eqb s t
  | _, _ => false
  end.

(** ToString, as a template literal applies it. *)
Definition toString (v : jsval) : string :=
  match v with
  | JUndefined => "undefined"
  | JNull => "null"
  | JNum n => NilZero.string_of_int (Z.to_int n)
  | JStr s => s
  end.

(** [Math.min(...l)] and [Math.max(...l)] guarded by [l.length > 0]:
    [cond ? Math.min(...l) : null]. *)
Definition minOrNull (l : list Z) : option Z :=
  match l with
  | [] => None
  | v :: vs => Some (fold_left Z.min vs v)
  end.

Definition maxOrNull (l : list Z) : option Z :=
  match l with
  | [] => None
  | v :: vs => Some (fold_left Z.max vs v)
  end.

(** [l[l.length - 1]] when [l.length > 0]. *)
Definition lastOf {A : Type} (l : list A) : option A :=
  nth_error l (Nat.pred (List.length l)).

End Js.

(* ================================================================== *)
(** ** Device tag normalisation                                        *)
(* ================================================================== *)

Module PcTag.

(** A device tag: its UTF-16 code units. *)
Definition units : Type := list Z.

(** The code units of a string of ASCII characters. *)
Definition unitsOf (s : string) : units :=
  map (fun c => Z.of_nat (nat_of_ascii c)) (list_ascii_of_string s).

(** The string built-ins of the host that the program calls. *)
Class Builtins : Type := {
  toLowerCase : units -> units
}.

Definition between (lo hi u : Z) : bool := (lo <=? u) && (u <=? hi).

(** The class [a-z0-9-]. *)
Definition allowed (u : Z) : bool :=
  between 97 122 u || between 48 57 u || (u =? 45).

(** [s.replace(/[^a-z0-9-]/g, '-')]: without the [u] flag the pattern is
    matched against each code unit.  The result has only units of
    [a-z0-9-] and is given as a string. *)
Fixpoint replaceDisallowed (s : units) : string :=
  match s with
  | [] => EmptyString
  | u :: s' =>
      String (if allowed u then ascii_of_nat (Z.to_nat u) else "-"%char)
        (replaceDisallowed s')
  end.

(** [normalizePcTag(pcTag)]; [None] is a null or missing tag. *)
Definition normalizePcTag {builtins : Builtins} (pcTag : option units) : string :=
  match pcTag with
  | None => "studio-terminals"
  | Some [] => "studio-terminals"
  | Some s => replaceDisallowed (toLowerCase s)
  end.

End PcTag.

(* ================================================================== *)
(** ** The relations                                                   *)
(* ================================================================== *)

(** A row of [dev_transcripts_raw], with the columns the tick selects. *)
Module Raw.
Record event : Type := {
  id : Js.jsval;
  pc_tag : option PcTag.units;
  source_type : Js.jsval;
  content : Js.jsval;
  original_timestamp : Z;
  project_slug : Js.jsval;
  project_id : Js.jsval;
  user_id : Js.jsval;
  raw_mode : Js.jsval;
  context_version : option Z;
  planning_slug : Js.jsval;
  forge_slug : Js.jsval
}.
End Raw.

(** A row of [dev_user_context]. *)
Module Ctx.
Record row : Type := {
  pc_tag_norm : Js.jsval;
  started_at : Z;
  ended_at : option Z;
  project_id : Js.jsval;
  project_slug : Js.jsval;
  project_name : Js.jsval;
  user_id : Js.jsval;
  mode : Js.jsval;
  dev_team : Js.jsval
}.
End Ctx.

(** A row of [dev_session_logs], with the columns the upsert names.
    [updated_at], which the conflict branch sets to the transaction time,
    is left out. *)
Module Log.
Record row : Type := {
  idempotency_key : string;
  pc_tag : option PcTag.units;
  pc_tag_norm : string;
  project_id : Js.jsval;
  project_slug : Js.jsval;
  user_id : Js.jsval;
  mode : string;
  lane : Js.jsval;
  window_start : Z;
  window_end : Z;
  segment_start : Z;
  segment_end : Z;
  first_ts : Z;
  last_ts : Z;
  raw_refs : list Js.jsval;
  raw_count : Z;
  message_count : Z;
  context_version_min : option Z;
  context_version_max : option Z;
  status : string
}.
End Log.

Record database : Type := {
  dev_transcripts_raw : list Raw.event;
  dev_user_context : list Ctx.row;
  dev_session_logs : list Log.row
}.

(* ================================================================== *)
(** ** PostgreSQL operators and the two queries                        *)
(* ================================================================== *)

Module Pg.
Import Js.

(** [GREATEST(a, b)]: NULL arguments are ignored. *)
Definition greatest (a b : option Z) : option Z :=
  match a, b with
  | Some x, Some y => Some (Z.max x y)
  | Some x, None => Some x
  | None, _ => b
  end.

(** Stable insertion into a list ordered by [original_timestamp]. *)
Fixpoint insertByTime (e : Raw.event) (l : list Raw.event) : list Raw.event :=
  match l with
  | [] => [e]
  | x :: l' =>
      if Raw.original_timestamp e <? Raw.original_timestamp x
      then e :: l
      else x :: insertByTime e l'
  end.

(** [ORDER BY original_timestamp ASC]; rows with equal timestamps keep
    their table order. *)
Definition orderByTime (l : list Raw.event) : list Raw.event :=
  fold_left (fun acc e => insertByTime e acc) l [].

(** The window query of the tick. *)
Definition selectRawEvents (table : list Raw.event)
    (windowStart windowEnd : Z) (mode : string) : list Raw.event :=
  orderByTime
    (filter (fun e =>
               (windowStart <=? Raw.original_timestamp e)
               && (Raw.original_timestamp e <? windowEnd)
               && strictEq (Raw.source_type e) (JStr mode))
            table).

(** The WHERE clause of [resolveContext]. *)
Definition contextMatches (pcTag : string) (timestamp : Z) (r : Ctx.row) : bool :=
  strictEq (Ctx.pc_tag_norm r) (JStr pcTag)
  && (Ctx.started_at r <=? timestamp)
  && match Ctx.ended_at r with
     | None => true
     | Some e => timestamp <? e
     end.

(** [ORDER BY started_at DESC LIMIT 1]; among rows with the same
    [started_at] the first in table order is kept. *)
Definition latestStarted (rows : list Ctx.row) : option Ctx.row :=
  fold_left
    (fun best r =>
       match best with
       | None => Some r
       | Some b => if Ctx.started_at b <? Ctx.started_at r then Some r else best
       end)
    rows None.

End Pg.

(* ================================================================== *)
(** ** The session builder                                             *)
(* ================================================================== *)

Module Chad.
Import Js.

Section Host.

(** The string built-ins of the host. *)
Context {builtins : PcTag.Builtins}.

(** [resolveContext(client, timestamp, pcTag)]: [result.rows[0] || null]. *)
Definition resolveContext (client : database) (timestamp : Z) (pcTag : string)
  : option Ctx.row :=
  Pg.latestStarted (filter (Pg.contextMatches pcTag timestamp) (dev_user_context client)).

(** [ctx?.field] *)
Definition opt (field : Ctx.row -> jsval) (ctx : option Ctx.row) : jsval :=
  match ctx with
  | Some c => field c
  | None => JUndefined
  end.

Record segment : Type := {
  projectId : jsval;
  projectSlug : jsval;
  userId : jsval;
  pcTag : option PcTag.units;
  mode : string;
  lane : jsval;
  segmentStart : Z;
  segmentEnd : option Z;
  events : list Raw.event;
  contextVersions : list Z
}.

(** [seg.segmentEnd = t] *)
Definition setSegmentEnd (seg : segment) (t : Z) : segment :=
  {| projectId := projectId seg; projectSlug := projectSlug seg;
     userId := userId seg; pcTag := pcTag seg; mode := mode seg;
     lane := lane seg; segmentStart := segmentStart seg;
     segmentEnd := Some t;
     events := events seg; contextVersions := contextVersions seg |}.

(** [seg.events.push(event)] followed by the guarded
    [seg.contextVersions.push(event.context_version)]. *)
Definition pushEvent (seg : segment) (event : Raw.event) : segment :=
  {| projectId := projectId seg; projectSlug := projectSlug seg;
     userId := userId seg; pcTag := pcTag seg; mode := mode seg;
     lane := lane seg; segmentStart := segmentStart seg;
     segmentEnd := segmentEnd seg;
     events := events seg ++ [event];
     contextVersions :=
       match Raw.context_version event with
       | Some v => contextVersions seg ++ [v]
       | None => contextVersions seg
       end |}.

(** The attribution of one event: [ctx?.project_id || 'UNASSIGNED']. *)
Definition projectIdOf (ctx : option Ctx.row) : jsval :=
  orElse (opt Ctx.project_id ctx) (JStr "UNASSIGNED").

Definition projectSlugOf (ctx : option Ctx.row) : jsval :=
  orElse (opt Ctx.project_slug ctx) (JStr "unassigned").

(** The context looked up for an event. *)
Definition contextOf (client : database) (event : Raw.event) : option Ctx.row :=
  resolveContext client (Raw.original_timestamp event)
    (PcTag.normalizePcTag (Raw.pc_tag event)).

(** The object literal that starts a segment. *)
Definition startSegment (tickMode : string) (ctx : option Ctx.row)
    (event : Raw.event) : segment :=
  {| projectId := projectIdOf ctx;
     projectSlug := projectSlugOf ctx;
     userId := orElse (opt Ctx.user_id ctx) (Raw.user_id event);
     pcTag := Raw.pc_tag event;
     mode := tickMode;
     lane := orElse (orElse (opt Ctx.mode ctx) (Raw.raw_mode event)) (JStr tickMode);
     segmentStart := Raw.original_timestamp event;
     segmentEnd := None;
     events := [];
     contextVersions := [] |}.

(** The two variables of the grouping loop. *)
Record loopState : Type := {
  segments : list segment;
  currentSegment : option segment
}.

(** One iteration of [for (const event of rawEvents)]. *)
Definition loopBody (client : database) (tickMode : string)
    (st : loopState) (event : Raw.event) : loopState :=
  let ctx := contextOf client event in
  let '(segs, cur) :=
    match currentSegment st with
    | Some cur =>
        if strictEq (projectId cur) (projectIdOf ctx)
        then (segments st, cur)
        else (segments st ++ [setSegmentEnd cur (Raw.original_timestamp event)],
              startSegment tickMode ctx event)
    | None => (segments st, startSegment tickMode ctx event)
    end in
  {| segments := segs; currentSegment := Some (pushEvent cur event) |}.

(** The flush of the last segment after the loop. *)
Definition flushLast (st : loopState) : list segment :=
  match currentSegment st with
  | None => segments st
  | Some cur =>
      match lastOf (events cur) with
      | None => segments st
      | Some e => segments st ++ [setSegmentEnd cur (Raw.original_timestamp e)]
      end
  end.

(** The segmenter: lines 122-162 of [processTick]. *)
Definition buildSegments (client : database) (tickMode : string)
    (rawEvents : list Raw.event) : list segment :=
  flushLast
    (fold_left (loopBody client tickMode) rawEvents
       {| segments := []; currentSegment := None |}).

(** The idempotency key of a closed segment. *)
Definition idempotencyKey (tickMode : string) (seg : segment) (segEnd : Z) : string :=
  ("chad:" ++ tickMode ++ ":" ++ toString (projectId seg) ++ ":"
   ++ JsDate.toISOString (segmentStart seg) ++ ":" ++ JsDate.toISOString segEnd)%string.

(** The VALUES row of the INSERT. *)
Definition insertedRow (tickMode : string) (windowStart windowEnd : Z)
    (seg : segment) (segEnd : Z) : Log.row :=
  {| Log.idempotency_key := idempotencyKey tickMode seg segEnd;
     Log.pc_tag := pcTag seg;
     Log.pc_tag_norm := PcTag.normalizePcTag (pcTag seg);
     Log.project_id := projectId seg;
     Log.project_slug := projectSlug seg;
     Log.user_id := userId seg;
     Log.mode := tickMode;
     Log.lane := lane seg;
     Log.window_start := windowStart;
     Log.window_end := windowEnd;
     Log.segment_start := segmentStart seg;
     Log.segment_end := segEnd;
     Log.first_ts := segmentStart seg;
     Log.last_ts := segEnd;
     Log.raw_refs := map Raw.id (events seg);
     Log.raw_count := Z.of_nat (List.length (events seg));
     Log.message_count := Z.of_nat (List.length (events seg));
     Log.context_version_min := minOrNull (contextVersions seg);
     Log.context_version_max := maxOrNull (contextVersions seg);
     Log.status := "active" |}.

(** The DO UPDATE SET list, applied to the stored row. *)
Definition onConflict (old excluded : Log.row) : Log.row :=
  {| Log.idempotency_key := Log.idempotency_key old;
     Log.pc_tag := Log.pc_tag old;
     Log.pc_tag_norm := Log.pc_tag_norm old;
     Log.project_id := Log.project_id old;
     Log.project_slug := Log.project_slug old;
     Log.user_id := Log.user_id old;
     Log.mode := Log.mode old;
     Log.lane := Log.lane old;
     Log.window_start := Log.window_start old;
     Log.window_end := Log.window_end old;
     Log.segment_start := Log.segment_start old;
     Log.segment_end := Z.max (Log.segment_end old) (Log.segment_end excluded);
     Log.first_ts := Log.first_ts old;
     Log.last_ts := Z.max (Log.last_ts old) (Log.last_ts excluded);
     Log.raw_refs := Log.raw_refs old ++ Log.raw_refs excluded;
     Log.raw_count := Log.raw_count old + Log.raw_count excluded;
     Log.message_count := Log.message_count old + Log.message_count excluded;
     Log.context_version_min := Log.context_version_min old;
     Log.context_version_max :=
       Pg.greatest (Log.context_version_max old) (Log.context_version_max excluded);
     Log.status := Log.status old |}.

(** INSERT ... ON CONFLICT (idempotency_key) DO UPDATE on the table. *)
Fixpoint upsert (excluded : Log.row) (table : list Log.row) : list Log.row :=
  match table with
  | [] => [excluded]
  | old :: rest =>
      if String.eqb (Log.idempotency_key old) (Log.idempotency_key excluded)
      then onConflict old excluded :: rest
      else old :: upsert excluded rest
  end.

(** [for (const seg of segments)]: [None] when [seg.segmentEnd.toISOString()]
    throws on a null [segmentEnd]. *)
Fixpoint writeSegments (tickMode : string) (windowStart windowEnd : Z)
    (segs : list segment) (table : list Log.row) : option (list Log.row) :=
  match segs with
  | [] => Some table
  | seg :: rest =>
      match segmentEnd seg with
      | None => None
      | Some segEnd =>
          writeSegments tickMode windowStart windowEnd rest
            (upsert (insertedRow tickMode windowStart windowEnd seg segEnd) table)
      end
  end.

(** The database with a new [dev_session_logs]. *)
Definition withSessionLogs (db : database) (logs : list Log.row) : database :=
  {| dev_transcripts_raw := dev_transcripts_raw db;
     dev_user_context := dev_user_context db;
     dev_session_logs := logs |}.

(** [processTick()]: the clock reads [now], the host is in the time zone
    [tz], and [db] is the database at BEGIN.  The result is the database
    after COMMIT, or [db] itself after ROLLBACK. *)
Definition processTick (tz : JsDate.zone) (now : Z) (db : database) : database :=
  let tickTime := TimeAligner.floorToQuarterHour tz now in
  let tickMode := TimeAligner.modeFor tz tickTime in
  let windowEnd := tickTime in
  let windowStart := tickTime - 30 * 60 * 1000 in
  let rawEvents :=
    Pg.selectRawEvents (dev_transcripts_raw db) windowStart windowEnd tickMode in
  match rawEvents with
  | [] => db
  | _ :: _ =>
      let segs := buildSegments db tickMode rawEvents in
      match writeSegments tickMode windowStart windowEnd segs (dev_session_logs db) with
      | Some logs => withSessionLogs db logs
      | None => db
      end
  end.

End Host.

End Chad.

(* ================================================================== *)
(** ** Vocabulary of the properties                                    *)
(* ================================================================== *)

Module Spec.
Import Js Chad.

Section Host.

Context {builtins : PcTag.Builtins}.

(** The attribution key the segmenter computes for an event. *)
Definition keyOf (client : database) (e : Raw.event) : jsval :=
  projectIdOf (contextOf client e).

(** The non-null [context_version] values of a list of events, in order. *)
Definition versionsOf (evs : list Raw.event) : list Z :=
  flat_map (fun e => match Raw.context_version e with
                     | Some v => [v]
                     | None => []
                     end) evs.

(** The segment opened at [first] once it holds [evs] and has end [segEnd]. *)
Definition segmentOf (client : database) (tickMode : string)
    (first : Raw.event) (evs : list Raw.event) (segEnd : option Z) : segment :=
  let s := startSegment tickMode (contextOf client first) first in
  {| projectId := projectId s; projectSlug := projectSlug s;
     userId := userId s; pcTag := pcTag s; mode := mode s; lane := lane s;
     segmentStart := segmentStart s;
     segmentEnd := segEnd;
     events := evs;
     contextVersions := versionsOf evs |}.

(** A segment that was opened at its own first event and holds only events
    with that event's key. *)
Definition wellFormed (client : database) (tickMode : string) (s : segment) : Prop :=
  exists first rest segEnd,
    s = segmentOf client tickMode first (first :: rest) segEnd
    /\ Forall (fun e => keyOf client e = keyOf client first) rest.

(** [R] holds between every element and the next one. *)
Definition consecutive {A : Type} (R : A -> A -> Prop) (l : list A) : Prop :=
  forall i a b, nth_error l i = Some a -> nth_error l (S i) = Some b -> R a b.

(** What separates a segment from the next one. *)
Definition boundary (a b : segment) : Prop :=
  projectId a <> projectId b /\ segmentEnd a = Some (segmentStart b).

(** Invariant of the grouping loop after the events [processed]. *)
Definition loopInvariant (client : database) (tickMode : string)
    (processed : list Raw.event) (st : loopState) : Prop :=
  match currentSegment st with
  | None => processed = [] /\ segments st = []
  | Some cur =>
      List.concat (map events (segments st ++ [cur])) = processed
      /\ Forall (wellFormed client tickMode) (segments st ++ [cur])
      /\ consecutive boundary (segments st ++ [cur])
      /\ Forall (fun s => segmentEnd s <> None) (segments st)
  end.

(** The stored row with a given idempotency key. *)
Definition lookup (key : string) (table : list Log.row) : option Log.row :=
  find (fun r => String.eqb (Log.idempotency_key r) key) table.

(** [m] is the least (greatest) element of [l]; null when [l] is empty. *)
Definition isMinOf (l : list Z) (m : option Z) : Prop :=
  match m with
  | None => l = []
  | Some x => In x l /\ Forall (fun v => x <= v) l
  end.

Definition isMaxOf (l : list Z) (m : option Z) : Prop :=
  match m with
  | None => l = []
  | Some x => In x l /\ Forall (fun v => v <= x) l
  end.

(** [table'] keeps every row of [table] in place with its key and status,
    and every row it adds has status 'active'. *)
Definition extendsActive (table table' : list Log.row) : Prop :=
  exists kept added,
    table' = kept ++ added
    /\ Forall2 (fun old new =>
                  Log.idempotency_key new = Log.idempotency_key old
                  /\ Log.status new = Log.status old) table kept
    /\ Forall (fun r => Log.status r = "active") added.

(** What the replacement leaves of one code unit of the lower-cased tag:
    a unit of [a-z0-9-] stays, any other becomes '-'. *)
Definition replaced (u : Z) : ascii :=
  if PcTag.allowed u then ascii_of_nat (Z.to_nat u) else "-"%char.

(** The character is one of [a-z0-9-]. *)
Definition inClass (c : ascii) : bool := PcTag.allowed (Z.of_nat (nat_of_ascii c)).

End Host.

End Spec.

(* ================================================================== *)
(** ** A worked window                                                 *)
(* ================================================================== *)

(** The window [10:00, 10:30) of 2024-01-01 (UTC) in mode 'internal':
    one device, working on project P1 until 10:15 and on P2 from then on. *)
Module Scenario.
Import Js.

(** [toLowerCase] on strings of ASCII units, the only ones the worked
    window has: A-Z become a-z and the other units stay. *)
Definition lowerAscii (s : PcTag.units) : PcTag.units :=
  map (fun u => if PcTag.between 65 90 u then u + 32 else u) s.

Definition builtins : PcTag.Builtins := {| PcTag.toLowerCase := lowerAscii |}.

#[local] Existing Instance builtins.

Definition t_09_00 : Z := 1704099600000.
Definition t_10_00 : Z := 1704103200000.
Definition t_10_05 : Z := 1704103500000.
Definition t_10_10 : Z := 1704103800000.
Definition t_10_12 : Z := 1704103920000.
Definition t_10_15 : Z := 1704104100000.
Definition t_10_20 : Z := 1704104400000.
Definition t_10_30 : Z := 1704105000000.

Definition rawEvent (i : Z) (t : Z) (version : option Z) : Raw.event :=
  {| Raw.id := JNum i;
     Raw.pc_tag := Some (PcTag.unitsOf "Dev PC");
     Raw.source_type := JStr "internal";
     Raw.content := JStr "text";
     Raw.original_timestamp := t;
     Raw.project_slug := JNull;
     Raw.project_id := JNull;
     Raw.user_id := JStr "u1";
     Raw.raw_mode := JNull;
     Raw.context_version := version;
     Raw.planning_slug := JNull;
     Raw.forge_slug := JNull |}.

Definition context (project : string) (from : Z) (to : option Z) : Ctx.row :=
  {| Ctx.pc_tag_norm := JStr "dev-pc";
     Ctx.started_at := from;
     Ctx.ended_at := to;
     Ctx.project_id := JStr project;
     Ctx.project_slug := JStr project;
     Ctx.project_name := JStr project;
     Ctx.user_id := JNull;
     Ctx.mode := JNull;
     Ctx.dev_team := JNull |}.

Definition contexts : list Ctx.row :=
  [context "P1" t_09_00 (Some t_10_15); context "P2" t_10_15 None].

Definition e1 : Raw.event := rawEvent 1 t_10_05 (Some 5).
Definition e2 : Raw.event := rawEvent 2 t_10_10 (Some 5).
Definition e3 : Raw.event := rawEvent 3 t_10_20 None.

Definition db : database :=
  {| dev_transcripts_raw := [e1; e2; e3];
     dev_user_context := contexts;
     dev_session_logs := [] |}.

Definition events : list Raw.event := [e1; e2; e3].

(** The first segment of the window: P1 from 10:05 to 10:20. *)
Definition firstSegment : Chad.segment :=
  Spec.segmentOf db "internal" e1 [e1; e2] (Some t_10_20).

(** Two events of the same window that reach the raw table late. *)
Definition late1 : Raw.event := rawEvent 4 t_10_10 (Some 3).
Definition late2 : Raw.event := rawEvent 5 t_10_12 (Some 9).

(** The database after a first tick, with the late events added. *)
Definition withLateEvents (after : database) : database :=
  {| dev_transcripts_raw := dev_transcripts_raw after ++ [late1; late2];
     dev_user_context := dev_user_context after;
     dev_session_logs := dev_session_logs after |}.

(** An instant of the quarter hour that starts at 10:30. *)
Definition now : Z := t_10_30 + 123456.

(** What a stored row shows of its versions and counts. *)
Definition versions (r : Log.row) : option Z * option Z :=
  (Log.context_version_min r, Log.context_version_max r).

Definition counts (r : Log.row) : Z * Z * list jsval :=
  (Log.raw_count r, Log.message_count r, Log.raw_refs r).

(** What a segment shows of itself: key, start, end, number of events. *)
Definition summary (s : Chad.segment)
  : jsval * Z * option Z * nat :=
  (Chad.projectId s, Chad.segmentStart s, Chad.segmentEnd s,
   List.length (Chad.events s)).

(** A device no context row knows. *)
Definition strayEvent (i : Z) (t : Z) : Raw.event :=
  {| Raw.id := JNum i;
     Raw.pc_tag := Some (PcTag.unitsOf "Laptop#7");
     Raw.source_type := JStr "internal";
     Raw.content := JStr "text";
     Raw.original_timestamp := t;
     Raw.project_slug := JStr "guess-me";
     Raw.project_id := JStr "P9";
     Raw.user_id := JStr "u2";
     Raw.raw_mode := JNull;
     Raw.context_version := None;
     Raw.planning_slug := JNull;
     Raw.forge_slug := JNull |}.

Definition strays : list Raw.event := [strayEvent 7 t_10_10; strayEvent 8 t_10_12].

End Scenario.

(* ================================================================== *)
(** ** Vocabulary of the further properties                            *)
(* ================================================================== *)

Module Laws.
Import Js Chad.

Section Host.

Context {builtins : PcTag.Builtins}.

(** The pieces of a tick, as [processTick] computes them. *)
Definition timeOfTick (tz : JsDate.zone) (now : Z) : Z :=
  TimeAligner.floorToQuarterHour tz now.

Definition modeOfTick (tz : JsDate.zone) (now : Z) : string :=
  TimeAligner.modeFor tz (timeOfTick tz now).

Definition startOfWindow (tz : JsDate.zone) (now : Z) : Z :=
  timeOfTick tz now - 30 * 60 * 1000.

Definition eventsOfTick (tz : JsDate.zone) (now : Z) (db : database)
  : list Raw.event :=
  Pg.selectRawEvents (dev_transcripts_raw db)
    (startOfWindow tz now) (timeOfTick tz now) (modeOfTick tz now).

Definition segmentsOfTick (tz : JsDate.zone) (now : Z) (db : database)
  : list segment :=
  buildSegments db (modeOfTick tz now) (eventsOfTick tz now db).

(** The idempotency keys under which a list of segments is written. *)
Definition segmentKeys (tickMode : string) (segs : list segment) : list string :=
  flat_map (fun s => match segmentEnd s with
                     | Some segEnd => [idempotencyKey tickMode s segEnd]
                     | None => []
                     end) segs.

Definition keysOfTick (tz : JsDate.zone) (now : Z) (db : database) : list string :=
  segmentKeys (modeOfTick tz now) (segmentsOfTick tz now db).

(** A quarter-hour boundary of local time. *)
Definition onQuarter (tz : JsDate.zone) (t : Z) : Prop :=
  TimeAligner.floorToQuarterHour tz t = t.

(** The WHERE clause of the window query. *)
Definition inWindow (windowStart windowEnd : Z) (tickMode : string)
    (e : Raw.event) : Prop :=
  windowStart <= Raw.original_timestamp e < windowEnd
  /\ Raw.source_type e = JStr tickMode.

(** The WHERE clause of the context query. *)
Definition covers (pcTag : string) (timestamp : Z) (r : Ctx.row) : Prop :=
  Ctx.pc_tag_norm r = JStr pcTag
  /\ Ctx.started_at r <= timestamp
  /\ match Ctx.ended_at r with
     | None => True
     | Some e => timestamp < e
     end.

(** The maximal runs of consecutive events with one key. *)
Fixpoint groupRuns (key : Raw.event -> jsval) (l : list Raw.event)
  : list (list Raw.event) :=
  match l with
  | [] => []
  | e :: l' =>
      match groupRuns key l' with
      | [] => [[e]]
      | [] :: rest => [e] :: rest
      | (f :: run) :: rest =>
          if strictEq (key e) (key f)
          then (e :: f :: run) :: rest
          else [e] :: (f :: run) :: rest
      end
  end.

(** The runs of the events still to come, with the events [cur] of the
    open segment of key [k] in front. *)
Definition attach (key : Raw.event -> jsval) (k : jsval)
    (cur : list Raw.event) (runs : list (list Raw.event))
  : list (list Raw.event) :=
  match runs with
  | (f :: run) :: rest =>
      if strictEq k (key f) then (cur ++ f :: run) :: rest else cur :: runs
  | _ => cur :: runs
  end.

(** The sum of [raw_count] over a table. *)
Definition totalRawCount (table : list Log.row) : Z :=
  fold_right (fun r acc => Log.raw_count r + acc) 0 table.

(** [new] is [old] after conflict updates: the columns outside the
    DO UPDATE SET list are the same, the merged ones have not shrunk. *)
Definition grows (old new : Log.row) : Prop :=
  Log.idempotency_key new = Log.idempotency_key old
  /\ Log.pc_tag new = Log.pc_tag old
  /\ Log.pc_tag_norm new = Log.pc_tag_norm old
  /\ Log.project_id new = Log.project_id old
  /\ Log.project_slug new = Log.project_slug old
  /\ Log.user_id new = Log.user_id old
  /\ Log.mode new = Log.mode old
  /\ Log.lane new = Log.lane old
  /\ Log.window_start new = Log.window_start old
  /\ Log.window_end new = Log.window_end old
  /\ Log.segment_start new = Log.segment_start old
  /\ Log.first_ts new = Log.first_ts old
  /\ Log.context_version_min new = Log.context_version_min old
  /\ Log.status new = Log.status old
  /\ Log.segment_end old <= Log.segment_end new
  /\ Log.last_ts old <= Log.last_ts new
  /\ Log.raw_count old <= Log.raw_count new
  /\ Log.message_count old <= Log.message_count new
  /\ (exists more, Log.raw_refs new = Log.raw_refs old ++ more)
  /\ match Log.context_version_max old with
     | Some a => exists b, Log.context_version_max new = Some b /\ a <= b
     | None => True
     end.

End Host.

End Laws.

(** A host with daylight saving time. *)
Module Hosts.

(** New York in 2024: five hours behind UTC, four from 2024-03-10T07:00Z
    to 2024-11-03T06:00Z. *)
Definition newYork2024 : JsDate.zone :=
  {| JsDate.baseOffset := -18000000;
     JsDate.transitions := [ (1710054000000, -14400000);
                             (1730613600000, -18000000) ] |}.

(** 2024-11-03T06:07:00Z: 01:07 local time for the second time that night. *)
Definition secondPass : Z := 1730614020000.

End Hosts.

(** The worked window again: the database the first tick commits, and the
    row it stores for the first segment. *)
Module Replay.

#[local] Existing Instance Scenario.builtins.

Definition afterFirst : database :=
  Chad.processTick JsDate.utc Scenario.now Scenario.db.

(** An event of the next 'internal' window, [10:30, 11:00), and the
    database with it in the raw table. *)
Definition t_10_40 : Z := Scenario.t_10_30 + 600000.

Definition nextEvent : Raw.event := Scenario.rawEvent 6 t_10_40 None.

Definition withNextWindow (after : database) : database :=
  {| dev_transcripts_raw := dev_transcripts_raw after ++ [nextEvent];
     dev_user_context := dev_user_context after;
     dev_session_logs := dev_session_logs after |}.

(** An instant of the quarter hour that starts at 11:00, whose tick is
    'internal' with the window [10:30, 11:00). *)
Definition atEleven : Z := Scenario.t_10_30 + 1800000 + 1000.


Definition storedP1 : Log.row :=
  Chad.insertedRow "internal" Scenario.t_10_00 Scenario.t_10_30
    Scenario.firstSegment Scenario.t_10_20.

(** An instant of the quarter hour that starts at 10:45, whose tick is
    'external'. *)
Definition later : Z := Scenario.t_10_30 + 900000 + 5000.

End Replay.

(* ================================================================== *)
(** * Properties                                                       *)
(* ================================================================== *)

(** ** Date built-ins on known instants *)

Example toISOString_epoch :
  JsDate.toISOString 0 = "1970-01-01T00:00:00.000Z".
Proof. reflexivity. Qed.

Example toISOString_2023 :
  JsDate.toISOString 1700000000123 = "2023-11-14T22:13:20.123Z".
Proof. vm_compute. reflexivity. Qed.

Example toISOString_leap :
  JsDate.toISOString 1709251199999 = "2024-02-29T23:59:59.999Z".
Proof. vm_compute. reflexivity. Qed.

Example toISOString_before_epoch :
  JsDate.toISOString (-1) = "1969-12-31T23:59:59.999Z".
Proof. vm_compute. reflexivity. Qed.

(** ** Time aligner *)

Section TimeAlignerFacts.
Import JsDate TimeAligner.

Variable tza : Z.

Ltac date_arith :=
  unfold msUntilNextQuarter, floorToQuarterHour, quarterIndex, getMinutes,
    setMinutes3, setMinutes1, LocalTime, UTC, LocalTZA, fixed, MakeDate,
    MakeTime, Day, HourFromTime, MinFromTime, SecFromTime, msFromTime,
    msPerDay, msPerHour, msPerMinute, msPerSecond in *;
  cbn [baseOffset transitions offsetAtUTC offsetAtLocal] in *;
  Z.to_euclidean_division_equations; lia.

(** Flooring removes the part of local time past the quarter hour. *)
Lemma floorToQuarterHour_eq (now : Z) :
  floorToQuarterHour (fixed tza) now = now - (now + tza) mod 900000.
Proof. date_arith. Qed.

Lemma quarterIndex_range (t : Z) : 0 <= quarterIndex (fixed tza) t <= 3.
Proof. date_arith. Qed.

Lemma quarterIndex_next (t : Z) :
  quarterIndex (fixed tza) (t + 900000) = (quarterIndex (fixed tza) t + 1) mod 4.
Proof. date_arith. Qed.

Lemma quarterIndex_floor (now : Z) :
  quarterIndex (fixed tza) (floorToQuarterHour (fixed tza) now) = quarterIndex (fixed tza) now.
Proof. rewrite floorToQuarterHour_eq. date_arith. Qed.

Lemma modeFor_cases (t : Z) :
  modeFor (fixed tza) t =
  if (quarterIndex (fixed tza) t =? 0) || (quarterIndex (fixed tza) t =? 2)
  then "internal" else "external".
Proof.
  unfold modeFor, modeOfIndex.
  pose proof (quarterIndex_range t) as Hr.
  assert (Hq : quarterIndex (fixed tza) t = 0 \/ quarterIndex (fixed tza) t = 1 \/
               quarterIndex (fixed tza) t = 2 \/ quarterIndex (fixed tza) t = 3) by lia.
  destruct Hq as [-> | [-> | [-> | ->]]]; reflexivity.
Qed.

Lemma modeFor_next (t : Z) : modeFor (fixed tza) (t + 900000) <> modeFor (fixed tza) t.
Proof.
  rewrite !modeFor_cases, quarterIndex_next.
  pose proof (quarterIndex_range t) as Hr.
  assert (Hq : quarterIndex (fixed tza) t = 0 \/ quarterIndex (fixed tza) t = 1 \/
               quarterIndex (fixed tza) t = 2 \/ quarterIndex (fixed tza) t = 3) by lia.
  destruct Hq as [-> | [-> | [-> | ->]]]; simpl; discriminate.
Qed.

Lemma modeFor_after_two (t : Z) : modeFor (fixed tza) (t + 1800000) = modeFor (fixed tza) t.
Proof.
  replace (t + 1800000) with (t + 900000 + 900000) by lia.
  rewrite !modeFor_cases, !quarterIndex_next.
  pose proof (quarterIndex_range t) as Hr.
  assert (Hq : quarterIndex (fixed tza) t = 0 \/ quarterIndex (fixed tza) t = 1 \/
               quarterIndex (fixed tza) t = 2 \/ quarterIndex (fixed tza) t = 3) by lia.
  destruct Hq as [-> | [-> | [-> | ->]]]; reflexivity.
Qed.

(** C5. With local time at a fixed offset from UTC, the tick time of any
    instant has a quarter index between 0 and 3;
    the mode is 'internal' for index 0 and 2 and 'external' for 1 and 3,
    whatever the hour; the next tick, 15 minutes later, has the next index
    and the other mode, so that four consecutive quarter-hours carry the
    modes m, m', m, m' with m different from m'. *)
Theorem mode_alternates_every_quarter (now : Z) :
  let tick := floorToQuarterHour (fixed tza) now in
  0 <= quarterIndex (fixed tza) tick <= 3
  /\ modeFor (fixed tza) tick =
     (if (quarterIndex (fixed tza) tick =? 0) || (quarterIndex (fixed tza) tick =? 2)
      then "internal" else "external")
  /\ floorToQuarterHour (fixed tza) (now + 900000) = tick + 900000
  /\ quarterIndex (fixed tza) (tick + 900000) = (quarterIndex (fixed tza) tick + 1) mod 4
  /\ modeFor (fixed tza) (tick + 900000) <> modeFor (fixed tza) tick
  /\ modeFor (fixed tza) (tick + 1800000) = modeFor (fixed tza) tick
  /\ modeFor (fixed tza) (tick + 2700000) = modeFor (fixed tza) (tick + 900000).
Proof.
  intros tick. repeat split.
  - apply quarterIndex_range.
  - apply quarterIndex_range.
  - apply modeFor_cases.
  - unfold tick. rewrite !floorToQuarterHour_eq.
    Z.to_euclidean_division_equations; lia.
  - apply quarterIndex_next.
  - apply modeFor_next.
  - apply modeFor_after_two.
  - replace (tick + 2700000) with (tick + 900000 + 1800000) by lia.
    apply modeFor_after_two.
Qed.

Lemma msUntilNextQuarter_eq (now : Z) :
  msUntilNextQuarter (fixed tza) now = 900000 - (now + tza) mod 900000.
Proof. date_arith. Qed.

(** With local time at a fixed offset from UTC, at every instant the wait
    until the next quarter hour is strictly positive and at most 900000 ms;
    on a quarter-hour boundary it is the full 900000 ms. *)
Lemma msUntilNextQuarter_fixed_range (now : Z) :
  0 < msUntilNextQuarter (fixed tza) now <= 900000
  /\ msUntilNextQuarter (fixed tza) (floorToQuarterHour (fixed tza) now) = 900000.
Proof.
  rewrite !msUntilNextQuarter_eq, floorToQuarterHour_eq.
  Z.to_euclidean_division_equations; lia.
Qed.

End TimeAlignerFacts.

Example newYork_offsets :
  JsDate.LocalTZA Hosts.newYork2024 1720000000000 true = -14400000
  /\ JsDate.LocalTZA Hosts.newYork2024 1735000000000 true = -18000000
  /\ JsDate.LocalTZA Hosts.newYork2024 Hosts.secondPass true = -18000000
  /\ JsDate.UTC Hosts.newYork2024 1710037800000 = 1710055800000
  /\ JsDate.UTC Hosts.newYork2024 1730595600000 = 1730610000000.
Proof. repeat split. Qed.

(** C9. On a host in the New York time zone, at 2024-11-03T06:07:00Z, in
    the hour that local time repeats when daylight saving time ends, local
    time reads 01:07; [floorToQuarterHour] returns 05:00Z, the first pass of
    local 01:00 and more than an hour back, and [msUntilNextQuarter] returns
    -3120000: the wait is negative. *)
Theorem msUntilNextQuarter_negative_in_repeated_hour :
  JsDate.toISOString Hosts.secondPass = "2024-11-03T06:07:00.000Z"
  /\ JsDate.HourFromTime (JsDate.LocalTime Hosts.newYork2024 Hosts.secondPass) = 1
  /\ JsDate.getMinutes Hosts.newYork2024 Hosts.secondPass = 7
  /\ TimeAligner.floorToQuarterHour Hosts.newYork2024 Hosts.secondPass
     = 1730610000000
  /\ JsDate.toISOString
       (TimeAligner.floorToQuarterHour Hosts.newYork2024 Hosts.secondPass)
     = "2024-11-03T05:00:00.000Z"
  /\ TimeAligner.msUntilNextQuarter Hosts.newYork2024 Hosts.secondPass
     = -3120000.
Proof. vm_compute. repeat split. Qed.

(** ** Lists *)

Section ListFacts.
Import Js Spec.

Context {A : Type}.

Lemma lastOf_snoc (l : list A) (x : A) : lastOf (l ++ [x]) = Some x.
Proof.
  unfold lastOf. rewrite length_app. simpl.
  replace (Nat.pred (List.length l + 1)) with (List.length l) by lia.
  rewrite nth_error_app2 by lia. rewrite Nat.sub_diag. reflexivity.
Qed.

Lemma lastOf_cons_some (x : A) (l : list A) : exists y, lastOf (x :: l) = Some y.
Proof.
  destruct (exists_last (l := x :: l)) as [l' [y Hl]]; [discriminate|].
  exists y. rewrite Hl. apply lastOf_snoc.
Qed.

Lemma lastOf_In (l : list A) (x : A) : lastOf l = Some x -> In x l.
Proof. unfold lastOf. apply nth_error_In. Qed.

Variable R : A -> A -> Prop.

Lemma consecutive_nil : consecutive R [].
Proof. intros i a b Ha. destruct i; discriminate. Qed.

Lemma consecutive_prefix (l m : list A) : consecutive R (l ++ m) -> consecutive R l.
Proof.
  intros H i a b Ha Hb.
  apply (H i a b).
  - rewrite nth_error_app1; [exact Ha|]. apply nth_error_Some. congruence.
  - rewrite nth_error_app1; [exact Hb|]. apply nth_error_Some. congruence.
Qed.

Lemma consecutive_last (l : list A) (c a : A) :
  consecutive R (l ++ [c]) -> lastOf l = Some a -> R a c.
Proof.
  intros H Ha. unfold lastOf in Ha.
  assert (Hlen : (Nat.pred (List.length l) < List.length l)%nat)
    by (apply nth_error_Some; congruence).
  apply (H (Nat.pred (List.length l))).
  - rewrite nth_error_app1 by exact Hlen. exact Ha.
  - rewrite nth_error_app2 by lia.
    replace (S (Nat.pred (List.length l)) - List.length l)%nat with 0%nat by lia.
    reflexivity.
Qed.

Lemma consecutive_snoc (l : list A) (n : A) :
  consecutive R l -> (forall a, lastOf l = Some a -> R a n) ->
  consecutive R (l ++ [n]).
Proof.
  intros H Hn i a b Ha Hb.
  destruct (Nat.lt_ge_cases (S i) (List.length l)) as [Hlt | Hge].
  - rewrite nth_error_app1 in Ha by lia. rewrite nth_error_app1 in Hb by lia.
    exact (H i a b Ha Hb).
  - assert (HSi : (S i < List.length (l ++ [n]))%nat)
      by (apply nth_error_Some; congruence).
    rewrite length_app in HSi. simpl in HSi.
    assert (Hi : S i = List.length l) by lia.
    rewrite nth_error_app1 in Ha by lia.
    rewrite nth_error_app2 in Hb by lia.
    replace (S i - List.length l)%nat with 0%nat in Hb by lia.
    simpl in Hb. injection Hb as <-.
    apply Hn. unfold lastOf. rewrite <- Hi. simpl. exact Ha.
Qed.

Lemma consecutive_split (pre post : list A) (a b : A) :
  consecutive R (pre ++ a :: b :: post) -> R a b.
Proof.
  intros H. apply (H (List.length pre)).
  - rewrite nth_error_app2 by lia. rewrite Nat.sub_diag. reflexivity.
  - rewrite nth_error_app2 by lia.
    replace (S (List.length pre) - List.length pre)%nat with 1%nat by lia.
    reflexivity.
Qed.

Lemma consecutive_at (l : list A) (i : nat) (a b : A) :
  nth_error l i = Some a -> nth_error l (S i) = Some b ->
  exists pre post, l = pre ++ a :: b :: post.
Proof.
  intros Ha Hb.
  destruct (nth_error_split l i Ha) as (pre & tl & -> & Hlen).
  rewrite nth_error_app2 in Hb by lia.
  replace (S i - List.length pre)%nat with 1%nat in Hb by lia.
  destruct tl as [|b' post]; simpl in Hb; [discriminate|].
  injection Hb as ->. exists pre, post. reflexivity.
Qed.

Lemma consecutive_of_split (l : list A) :
  (forall pre a b post, l = pre ++ a :: b :: post -> R a b) -> consecutive R l.
Proof.
  intros H i a b Ha Hb.
  destruct (consecutive_at l i a b Ha Hb) as (pre & post & Hl).
  exact (H pre a b post Hl).
Qed.

End ListFacts.

Lemma sorted_app_le (l1 l2 : list Z) (x y : Z) :
  StronglySorted Z.le (l1 ++ l2) -> In x l1 -> In y l2 -> x <= y.
Proof.
  induction l1 as [|a l1 IH]; simpl; intros Hs Hx Hy; [contradiction|].
  inversion Hs as [|? ? Hs' Hall]; subst.
  destruct Hx as [-> | Hx].
  - rewrite Forall_forall in Hall. apply Hall. apply in_or_app. right. exact Hy.
  - exact (IH Hs' Hx Hy).
Qed.

Lemma sorted_app_r (l1 l2 : list Z) :
  StronglySorted Z.le (l1 ++ l2) -> StronglySorted Z.le l2.
Proof.
  induction l1 as [|a l1 IH]; simpl; intros Hs; [exact Hs|].
  inversion Hs; subst. auto.
Qed.

Lemma sorted_app_l (l1 l2 : list Z) :
  StronglySorted Z.le (l1 ++ l2) -> StronglySorted Z.le l1.
Proof.
  induction l1 as [|a l1 IH]; simpl; intros Hs; [constructor|].
  inversion Hs as [|? ? Hs' Hall]; subst. constructor; [auto|].
  apply Forall_app in Hall. tauto.
Qed.

(** ** Segmenter *)

Section SegmenterFacts.
Import Js Chad Spec.

Context {builtins : PcTag.Builtins}.

Variable client : database.
Variable tickMode : string.

Lemma strictEq_true_iff (a b : jsval) : strictEq a b = true <-> a = b.
Proof.
  destruct a, b; simpl; split; intros H; try discriminate; try reflexivity.
  - apply Z.eqb_eq in H. congruence.
  - injection H as ->. apply Z.eqb_refl.
  - apply String.eqb_eq in H. congruence.
  - injection H as ->. apply String.eqb_refl.
Qed.

Lemma strictEq_false_iff (a b : jsval) : strictEq a b = false <-> a <> b.
Proof.
  rewrite <- strictEq_true_iff. destruct (strictEq a b); split; congruence.
Qed.

Lemma versionsOf_app (l m : list Raw.event) :
  versionsOf (l ++ m) = versionsOf l ++ versionsOf m.
Proof. unfold versionsOf. apply flat_map_app. Qed.

Lemma pushEvent_segmentOf (f : Raw.event) (evs : list Raw.event)
    (x : option Z) (e : Raw.event) :
  pushEvent (segmentOf client tickMode f evs x) e
  = segmentOf client tickMode f (evs ++ [e]) x.
Proof.
  unfold pushEvent, segmentOf. simpl. f_equal.
  rewrite versionsOf_app. unfold versionsOf at 3. simpl.
  destruct (Raw.context_version e); simpl.
  - reflexivity.
  - rewrite app_nil_r. reflexivity.
Qed.

Lemma pushEvent_startSegment (e : Raw.event) :
  pushEvent (startSegment tickMode (contextOf client e) e) e
  = segmentOf client tickMode e [e] None.
Proof.
  unfold pushEvent, segmentOf, versionsOf. simpl.
  destruct (Raw.context_version e); reflexivity.
Qed.

Lemma boundary_last_irrelevant (a c c' : segment) :
  projectId c' = projectId c -> segmentStart c' = segmentStart c ->
  boundary a c -> boundary a c'.
Proof. unfold boundary. intros -> ->. tauto. Qed.

(** Replacing the open segment by one with the same key and start keeps
    the boundaries. *)
Lemma consecutive_boundary_replace (l : list segment) (c c' : segment) :
  projectId c' = projectId c -> segmentStart c' = segmentStart c ->
  consecutive boundary (l ++ [c]) -> consecutive boundary (l ++ [c']).
Proof.
  intros Hk Hs H. apply consecutive_snoc.
  - exact (consecutive_prefix _ _ _ H).
  - intros a Ha. apply (boundary_last_irrelevant a c c' Hk Hs).
    exact (consecutive_last _ _ _ _ H Ha).
Qed.

Lemma loopBody_invariant (processed : list Raw.event) (st : loopState)
    (e : Raw.event) :
  loopInvariant client tickMode processed st ->
  loopInvariant client tickMode (processed ++ [e]) (loopBody client tickMode st e).
Proof.
  unfold loopInvariant, loopBody.
  destruct (currentSegment st) as [cur|].
  - intros (Hcat & Hwf & Hcons & Hends).
    apply Forall_app in Hwf. destruct Hwf as [Hwfs Hwfc].
    inversion Hwfc as [|? ? (f & rest & x & Hcur & Hkeys) _]; subst cur.
    rewrite map_app, concat_app in Hcat. simpl in Hcat. rewrite app_nil_r in Hcat.
    destruct (strictEq _ _) eqn:Heq; simpl.
    + apply strictEq_true_iff in Heq. simpl in Heq.
      rewrite pushEvent_segmentOf. split; [|split; [|split]].
      * rewrite map_app, concat_app. simpl. rewrite app_nil_r.
        rewrite <- Hcat. rewrite <- app_assoc. reflexivity.
      * apply Forall_app. split; [exact Hwfs|]. constructor; [|constructor].
        exists f, (rest ++ [e]), x. split; [reflexivity|].
        apply Forall_app. split; [exact Hkeys|]. constructor; [|constructor].
        unfold keyOf. symmetry. exact Heq.
      * revert Hcons. apply consecutive_boundary_replace; reflexivity.
      * exact Hends.
    + apply strictEq_false_iff in Heq. simpl in Heq.
      rewrite pushEvent_startSegment.
      replace ((segments st ++ [setSegmentEnd (segmentOf client tickMode f (f :: rest) x)
                                  (Raw.original_timestamp e)])
               ++ [segmentOf client tickMode e [e] None])
        with ((segments st ++ [segmentOf client tickMode f (f :: rest)
                                 (Some (Raw.original_timestamp e))])
              ++ [segmentOf client tickMode e [e] None]) by reflexivity.
      split; [|split; [|split]].
      * rewrite !map_app, !concat_app. simpl. rewrite <- Hcat.
        rewrite !app_nil_r, <- !app_assoc. reflexivity.
      * apply Forall_app. split.
        -- apply Forall_app. split; [exact Hwfs|]. constructor; [|constructor].
           exists f, rest, (Some (Raw.original_timestamp e)). split; [reflexivity|exact Hkeys].
        -- constructor; [|constructor].
           exists e, [], None. split; [reflexivity|constructor].
      * apply consecutive_snoc.
        -- revert Hcons. apply consecutive_boundary_replace; reflexivity.
        -- intros a Ha. rewrite lastOf_snoc in Ha. injection Ha as <-.
           split; [exact Heq|reflexivity].
      * apply Forall_app. split; [exact Hends|]. constructor; [|constructor].
        simpl. discriminate.
  - intros [-> Hsegs]. simpl. rewrite Hsegs. simpl.
    rewrite pushEvent_startSegment. split; [|split; [|split]].
    + reflexivity.
    + constructor; [|constructor]. exists e, [], None. split; [reflexivity|constructor].
    + intros i a b Ha Hb. destruct i as [|i]; simpl in Hb; [discriminate|].
      destruct i; discriminate.
    + constructor.
Qed.

Lemma loop_invariant (rawEvents processed : list Raw.event) (st : loopState) :
  loopInvariant client tickMode processed st ->
  loopInvariant client tickMode (processed ++ rawEvents)
    (fold_left (loopBody client tickMode) rawEvents st).
Proof.
  revert processed st.
  induction rawEvents as [|e l IH]; intros processed st H; simpl.
  - rewrite app_nil_r. exact H.
  - replace (processed ++ e :: l) with ((processed ++ [e]) ++ l)
      by (rewrite <- app_assoc; reflexivity).
    apply IH. apply loopBody_invariant. exact H.
Qed.

(** What the segmenter returns on a non-empty input. *)
Lemma buildSegments_spec (rawEvents : list Raw.event) :
  rawEvents <> [] ->
  let segs := buildSegments client tickMode rawEvents in
  List.concat (map events segs) = rawEvents
  /\ Forall (wellFormed client tickMode) segs
  /\ consecutive boundary segs
  /\ (exists init lastSeg lastEv,
        segs = init ++ [lastSeg]
        /\ lastOf (events lastSeg) = Some lastEv
        /\ segmentEnd lastSeg = Some (Raw.original_timestamp lastEv))
  /\ Forall (fun s => segmentEnd s <> None) segs.
Proof.
  intros Hne segs. subst segs. unfold buildSegments.
  assert (Hinit : loopInvariant client tickMode []
                    {| segments := []; currentSegment := None |})
    by (split; reflexivity).
  pose proof (loop_invariant rawEvents [] _ Hinit) as Hinv.
  simpl in Hinv.
  set (st := fold_left (loopBody client tickMode) rawEvents _) in *.
  unfold loopInvariant in Hinv. unfold flushLast.
  destruct (currentSegment st) as [cur|]; [|destruct Hinv; contradiction].
  destruct Hinv as (Hcat & Hwf & Hcons & Hends).
  apply Forall_app in Hwf. destruct Hwf as [Hwfs Hwfc].
  inversion Hwfc as [|? ? (f & rest & x & Hcur & Hkeys) _]; subst cur.
  rewrite map_app, concat_app in Hcat. simpl in Hcat. rewrite app_nil_r in Hcat.
  simpl events.
  destruct (lastOf_cons_some f rest) as [y Hy]. rewrite Hy.
  change (setSegmentEnd (segmentOf client tickMode f (f :: rest) x)
            (Raw.original_timestamp y))
    with (segmentOf client tickMode f (f :: rest) (Some (Raw.original_timestamp y))).
  split; [|split; [|split; [|split]]].
  - rewrite map_app, concat_app. simpl. rewrite app_nil_r. exact Hcat.
  - apply Forall_app. split; [exact Hwfs|]. constructor; [|constructor].
    exists f, rest, (Some (Raw.original_timestamp y)). split; [reflexivity|exact Hkeys].
  - revert Hcons. apply consecutive_boundary_replace; reflexivity.
  - exists (segments st), (segmentOf client tickMode f (f :: rest)
                             (Some (Raw.original_timestamp y))), y.
    split; [reflexivity|]. split; [exact Hy|reflexivity].
  - apply Forall_app. split; [exact Hends|]. constructor; [|constructor].
    simpl. discriminate.
Qed.

Lemma buildSegments_nil : buildSegments client tickMode [] = [].
Proof. reflexivity. Qed.

Lemma lastOf_split {A : Type} (l : list A) (y : A) :
  lastOf l = Some y -> exists l', l = l' ++ [y].
Proof.
  intros H. destruct l as [|a l]; [discriminate|].
  destruct (exists_last (l := a :: l)) as [l' [z Hl]]; [discriminate|].
  rewrite Hl in H. rewrite lastOf_snoc in H. injection H as ->.
  exists l'. exact Hl.
Qed.

(** In a sorted input the events of a segment precede those of the next. *)
Lemma events_order (pre post : list segment) (a b : segment) (ea eb : Raw.event) :
  StronglySorted Z.le
    (map Raw.original_timestamp
       (List.concat (map events (pre ++ a :: b :: post)))) ->
  In ea (events a) -> In eb (events b) ->
  Raw.original_timestamp ea <= Raw.original_timestamp eb.
Proof.
  intros Hs Ha Hb.
  rewrite map_app, concat_app, map_app in Hs. apply sorted_app_r in Hs.
  simpl in Hs. rewrite map_app in Hs.
  apply (sorted_app_le _ _ _ _ Hs).
  - apply in_map. exact Ha.
  - apply in_map. apply in_or_app. left. exact Hb.
Qed.

(** In a sorted input the events of each segment are sorted. *)
Lemma events_sorted (segs : list segment) (s : segment) :
  StronglySorted Z.le
    (map Raw.original_timestamp (List.concat (map events segs))) ->
  In s segs ->
  StronglySorted Z.le (map Raw.original_timestamp (events s)).
Proof.
  intros Hs Hin. destruct (in_split _ _ Hin) as (l1 & l2 & ->).
  rewrite map_app, concat_app, map_app in Hs. apply sorted_app_r in Hs.
  simpl in Hs. rewrite map_app in Hs. exact (sorted_app_l _ _ Hs).
Qed.

(** C3. On a non-empty input in ascending time order the segments, laid
    end to end, are the input itself, so that every event is in exactly one
    segment; no segment is empty; adjacent segments have different
    attribution keys; and the segments are in ascending time order: starts
    ascend, every event of a segment precedes every event of the next, and
    the events of a segment lie between its start and its end. *)
Theorem segments_partition_input (rawEvents : list Raw.event) :
  rawEvents <> [] ->
  Sorted Z.le (map Raw.original_timestamp rawEvents) ->
  let segs := buildSegments client tickMode rawEvents in
  List.concat (map events segs) = rawEvents
  /\ Forall (fun s => events s <> []) segs
  /\ consecutive (fun a b => projectId a <> projectId b) segs
  /\ consecutive
       (fun a b =>
          segmentStart a <= segmentStart b
          /\ forall ea eb, In ea (events a) -> In eb (events b) ->
               Raw.original_timestamp ea <= Raw.original_timestamp eb) segs
  /\ Forall
       (fun s =>
          exists segEnd,
            segmentEnd s = Some segEnd
            /\ forall ev, In ev (events s) ->
                 segmentStart s <= Raw.original_timestamp ev <= segEnd) segs.
Proof.
  intros Hne Hsorted segs.
  destruct (buildSegments_spec rawEvents Hne)
    as (Hcat & Hwf & Hcons & (init & lastSeg & y & Hsegs & Hy & Hend) & _).
  fold segs in Hcat, Hwf, Hcons, Hsegs. clearbody segs.
  assert (Hss : StronglySorted Z.le
                  (map Raw.original_timestamp (List.concat (map events segs)))).
  { rewrite Hcat. apply Sorted_StronglySorted; [|exact Hsorted].
    intros a b c. apply Z.le_trans. }
  rewrite Forall_forall in Hwf.
  split; [exact Hcat|]. split; [|split; [|split]].
  - apply Forall_forall. intros s Hs.
    destruct (Hwf s Hs) as (f & rest & x & -> & _). discriminate.
  - intros i a b Ha Hb. exact (proj1 (Hcons i a b Ha Hb)).
  - intros i a b Ha Hb.
    destruct (consecutive_at segs i a b Ha Hb) as (pre & post & Hl).
    rewrite Hl in Hss.
    assert (Hord : forall ea eb, In ea (events a) -> In eb (events b) ->
                     Raw.original_timestamp ea <= Raw.original_timestamp eb)
      by (intros ea eb; apply (events_order pre post a b ea eb Hss)).
    split; [|exact Hord].
    destruct (Hwf a (nth_error_In _ _ Ha)) as (fa & ra & xa & -> & _).
    destruct (Hwf b (nth_error_In _ _ Hb)) as (fb & rb & xb & -> & _).
    simpl. apply Hord; left; reflexivity.
  - apply Forall_forall. intros s Hs.
    pose proof (events_sorted segs s Hss Hs) as Hin.
    destruct (Hwf s Hs) as (f & rest & x & Hseg & _).
    assert (Hstart : forall ev, In ev (events s) ->
                       segmentStart s <= Raw.original_timestamp ev).
    { intros ev Hev. rewrite Hseg in Hin, Hev |- *. simpl in Hin, Hev |- *.
      inversion Hin as [|? ? _ Hall]; subst.
      destruct Hev as [<- | Hev]; [lia|].
      rewrite Forall_forall in Hall. apply Hall. apply in_map. exact Hev. }
    rewrite Hsegs in Hs. apply in_app_or in Hs. destruct Hs as [Hs | [<- | []]].
    + destruct (in_split _ _ Hs) as (l1 & l2 & Hinit).
      destruct (l2 ++ [lastSeg]) as [|b post] eqn:Htl;
        [destruct l2; discriminate|].
      assert (Hl : segs = l1 ++ s :: b :: post).
      { rewrite Hsegs, Hinit, <- app_assoc. simpl. rewrite Htl. reflexivity. }
      rewrite Hl in Hcons, Hss.
      destruct (consecutive_split _ _ _ _ _ Hcons) as [_ Hb].
      exists (segmentStart b). split; [exact Hb|].
      intros ev Hev. split; [exact (Hstart ev Hev)|].
      assert (Hbin : In b segs) by (rewrite Hl; apply in_or_app; right; right; left; reflexivity).
      destruct (Hwf b Hbin) as (fb & rb & xb & -> & _). simpl.
      apply (events_order l1 post s _ ev fb Hss Hev). left. reflexivity.
    + exists (Raw.original_timestamp y). split; [exact Hend|].
      intros ev Hev. split; [exact (Hstart ev Hev)|].
      destruct (lastOf_split _ _ Hy) as (l' & Hl').
      rewrite Hl' in Hin, Hev. apply in_app_or in Hev.
      destruct Hev as [Hev | [<- | []]]; [|lia].
      rewrite map_app in Hin.
      apply (sorted_app_le _ _ _ _ Hin).
      * apply in_map. exact Hev.
      * left. reflexivity.
Qed.

(** C4. On a non-empty input every segment but the last ends at the
    timestamp of the first event of the next segment, and the last segment
    ends at the timestamp of its own last event.  In the window
    [10:00, 10:30) with events at 10:05 and 10:10 under P1 and at 10:20
    under P2 the segments are exactly P1 from 10:05 to 10:20 with two events
    and P2 from 10:20 to 10:20 with one event. *)
Theorem segment_ends_at_next_start (rawEvents : list Raw.event) :
  rawEvents <> [] ->
  let segs := buildSegments client tickMode rawEvents in
  consecutive
    (fun a b =>
       exists first rest,
         events b = first :: rest
         /\ segmentEnd a = Some (Raw.original_timestamp first)) segs
  /\ (exists init lastSeg lastEv,
        segs = init ++ [lastSeg]
        /\ lastOf (events lastSeg) = Some lastEv
        /\ segmentEnd lastSeg = Some (Raw.original_timestamp lastEv))
  /\ map Scenario.summary
       (@buildSegments Scenario.builtins Scenario.db "internal"
          (Pg.selectRawEvents (dev_transcripts_raw Scenario.db)
             Scenario.t_10_00 Scenario.t_10_30 "internal"))
     = [ (JStr "P1", Scenario.t_10_05, Some Scenario.t_10_20, 2%nat);
         (JStr "P2", Scenario.t_10_20, Some Scenario.t_10_20, 1%nat) ].
Proof.
  intros Hne segs.
  destruct (buildSegments_spec rawEvents Hne)
    as (_ & Hwf & Hcons & Hlast & _).
  fold segs in Hwf, Hcons, Hlast. clearbody segs.
  split; [|split; [exact Hlast|vm_compute; reflexivity]].
  intros i a b Ha Hb.
  destruct (Hcons i a b Ha Hb) as [_ Hend].
  rewrite Forall_forall in Hwf.
  destruct (Hwf b (nth_error_In _ _ Hb)) as (f & rest & x & -> & _).
  exists f, rest. split; [reflexivity|exact Hend].
Qed.

(** Closed segments stay in the result. *)
Lemma loopBody_keeps_closed (st : loopState) (e : Raw.event) (s : segment) :
  In s (segments st) -> In s (segments (loopBody client tickMode st e)).
Proof.
  unfold loopBody. intros H.
  destruct (currentSegment st) as [cur|]; [|exact H].
  destruct (strictEq _ _); simpl; [exact H|].
  apply in_or_app. left. exact H.
Qed.

Lemma closed_in_result (l : list Raw.event) (st : loopState) (s : segment) :
  In s (segments st) ->
  In s (flushLast (fold_left (loopBody client tickMode) l st)).
Proof.
  revert st. induction l as [|e l IH]; intros st H; simpl.
  - unfold flushLast. destruct (currentSegment st) as [cur|]; [|exact H].
    destruct (lastOf (events cur)); [|exact H].
    apply in_or_app. left. exact H.
  - apply IH. apply loopBody_keeps_closed. exact H.
Qed.

(** The open segment ends up in the result, with the events it has and
    possibly more after them. *)
Lemma current_in_result (l : list Raw.event) (st : loopState) (cur : segment) :
  currentSegment st = Some cur -> events cur <> [] ->
  exists seg after,
    In seg (flushLast (fold_left (loopBody client tickMode) l st))
    /\ projectId seg = projectId cur
    /\ events seg = events cur ++ after.
Proof.
  revert st cur. induction l as [|e l IH]; intros st cur Hcur Hne; simpl.
  - unfold flushLast. rewrite Hcur.
    destruct (events cur) as [|a evs] eqn:Hev; [contradiction|].
    destruct (lastOf_cons_some a evs) as [y Hy]. rewrite Hy.
    exists (setSegmentEnd cur (Raw.original_timestamp y)), [].
    split; [apply in_or_app; right; left; reflexivity|].
    split; [reflexivity|]. simpl. rewrite app_nil_r. exact Hev.
  - destruct (strictEq (projectId cur) (projectIdOf (contextOf client e))) eqn:Heq.
    + destruct (IH (loopBody client tickMode st e) (pushEvent cur e))
        as (seg & after & Hin & Hk & Hevs).
      * unfold loopBody. rewrite Hcur, Heq. reflexivity.
      * simpl. destruct (events cur); discriminate.
      * exists seg, (e :: after). split; [exact Hin|]. split; [exact Hk|].
        rewrite Hevs. simpl. rewrite <- app_assoc. reflexivity.
    + exists (setSegmentEnd cur (Raw.original_timestamp e)), [].
      split; [|split; [reflexivity|simpl; rewrite app_nil_r; reflexivity]].
      apply closed_in_result. unfold loopBody. rewrite Hcur, Heq. simpl.
      apply in_or_app. right. left. reflexivity.
Qed.

(** After an event the open segment has that event's key and ends with it. *)
Lemma loopBody_current (st : loopState) (e : Raw.event) :
  exists cur before,
    currentSegment (loopBody client tickMode st e) = Some cur
    /\ projectId cur = keyOf client e
    /\ events cur = before ++ [e].
Proof.
  unfold loopBody, keyOf.
  destruct (currentSegment st) as [cur|].
  - destruct (strictEq _ _) eqn:Heq; simpl.
    + apply strictEq_true_iff in Heq.
      exists (pushEvent cur e), (events cur). auto.
    + exists (pushEvent (startSegment tickMode (contextOf client e) e) e), [].
      auto.
  - exists (pushEvent (startSegment tickMode (contextOf client e) e) e), [].
    auto.
Qed.

(** Events with the key of the open segment all join it. *)
Lemma same_key_run_joins (run : list Raw.event) (st : loopState) (cur : segment) :
  currentSegment st = Some cur ->
  Forall (fun e => keyOf client e = projectId cur) run ->
  exists cur',
    currentSegment (fold_left (loopBody client tickMode) run st) = Some cur'
    /\ projectId cur' = projectId cur
    /\ events cur' = events cur ++ run.
Proof.
  revert st cur. induction run as [|e run IH]; intros st cur Hcur Hall; simpl.
  - exists cur. rewrite app_nil_r. auto.
  - inversion Hall as [|? ? He Hrest]; subst.
    assert (Hstep : currentSegment (loopBody client tickMode st e)
                    = Some (pushEvent cur e)).
    { unfold loopBody. rewrite Hcur.
      replace (strictEq (projectId cur) (projectIdOf (contextOf client e)))
        with true; [reflexivity|].
      symmetry. apply strictEq_true_iff. symmetry. exact He. }
    destruct (IH _ _ Hstep Hrest) as (cur' & Hc & Hk & Hevs).
    exists cur'. split; [exact Hc|]. split; [exact Hk|].
    rewrite Hevs. simpl. rewrite <- app_assoc. reflexivity.
Qed.

(** A run of consecutive events with one key lies within one segment. *)
Lemma run_coalesced (k : jsval) (pre run post : list Raw.event) :
  run <> [] ->
  Forall (fun e => keyOf client e = k) run ->
  exists seg before after,
    In seg (buildSegments client tickMode (pre ++ run ++ post))
    /\ projectId seg = k
    /\ events seg = before ++ run ++ after.
Proof.
  intros Hne Hall. unfold buildSegments.
  destruct run as [|e run]; [contradiction|].
  inversion Hall as [|? ? He Hrest]; subst.
  rewrite !fold_left_app. simpl.
  set (st := fold_left (loopBody client tickMode) pre _).
  destruct (loopBody_current st e) as (cur & before & Hcur & Hk & Hevs).
  destruct (same_key_run_joins run _ cur Hcur) as (cur' & Hcur' & Hk' & Hevs').
  { rewrite Hk. exact Hrest. }
  destruct (current_in_result post _ cur' Hcur') as (seg & after & Hin & Hks & Hes).
  { rewrite Hevs', Hevs. destruct before; discriminate. }
  exists seg, before, after. split; [exact Hin|]. split; [congruence|].
  rewrite Hes, Hevs', Hevs. rewrite <- !app_assoc. reflexivity.
Qed.

(** C7. Events whose context lookup returns nothing get the key
    'UNASSIGNED', a fixed non-null value that does not depend on the event;
    a run of consecutive such events lies within one segment with that key. *)
Theorem absent_context_is_unassigned (pre run post : list Raw.event) :
  run <> [] ->
  Forall (fun e => contextOf client e = None) run ->
  Forall (fun e => keyOf client e = JStr "UNASSIGNED") run
  /\ truthy (JStr "UNASSIGNED") = true
  /\ exists seg before after,
       In seg (buildSegments client tickMode (pre ++ run ++ post))
       /\ projectId seg = JStr "UNASSIGNED"
       /\ events seg = before ++ run ++ after.
Proof.
  intros Hne Habsent.
  assert (Hkeys : Forall (fun e => keyOf client e = JStr "UNASSIGNED") run).
  { revert Habsent. apply Forall_impl. intros e He.
    unfold keyOf. rewrite He. reflexivity. }
  split; [exact Hkeys|]. split; [reflexivity|].
  apply run_coalesced; assumption.
Qed.

End SegmenterFacts.

(** ** Aggregate writer *)

Section WriterFacts.
Import Js Chad Spec.

Context {builtins : PcTag.Builtins}.

Lemma fold_min_spec (vs : list Z) (v : Z) :
  let m := fold_left Z.min vs v in
  (m = v \/ In m vs) /\ m <= v /\ Forall (fun x => m <= x) vs.
Proof.
  revert v. induction vs as [|a vs IH]; intros v; simpl.
  - split; [left; reflexivity|]. split; [lia|constructor].
  - destruct (IH (Z.min v a)) as (Hin & Hle & Hall).
    split; [|split; [lia|constructor; [lia|exact Hall]]].
    destruct Hin as [Hm | Hm]; [|right; right; exact Hm].
    destruct (Z.min_spec v a) as [[_ Hv] | [_ Ha]].
    + left. congruence.
    + right. left. congruence.
Qed.

Lemma fold_max_spec (vs : list Z) (v : Z) :
  let m := fold_left Z.max vs v in
  (m = v \/ In m vs) /\ v <= m /\ Forall (fun x => x <= m) vs.
Proof.
  revert v. induction vs as [|a vs IH]; intros v; simpl.
  - split; [left; reflexivity|]. split; [lia|constructor].
  - destruct (IH (Z.max v a)) as (Hin & Hle & Hall).
    split; [|split; [lia|constructor; [lia|exact Hall]]].
    destruct Hin as [Hm | Hm]; [|right; right; exact Hm].
    destruct (Z.max_spec v a) as [[_ Ha] | [_ Hv]].
    + right. left. congruence.
    + left. congruence.
Qed.

Lemma minOrNull_isMinOf (l : list Z) : isMinOf l (minOrNull l).
Proof.
  destruct l as [|v vs]; simpl; [reflexivity|].
  destruct (fold_min_spec vs v) as (Hin & Hle & Hall).
  split; [destruct Hin; [left; congruence|right; assumption]|].
  constructor; assumption.
Qed.

Lemma maxOrNull_isMaxOf (l : list Z) : isMaxOf l (maxOrNull l).
Proof.
  destruct l as [|v vs]; simpl; [reflexivity|].
  destruct (fold_max_spec vs v) as (Hin & Hle & Hall).
  split; [destruct Hin; [left; congruence|right; assumption]|].
  constructor; assumption.
Qed.

(** The row found under the key just written. *)
Lemma lookup_upsert_same (r : Log.row) (table : list Log.row) :
  lookup (Log.idempotency_key r) (upsert r table)
  = Some (match lookup (Log.idempotency_key r) table with
          | Some old => onConflict old r
          | None => r
          end).
Proof.
  unfold lookup. induction table as [|old rest IH]; simpl.
  - rewrite String.eqb_refl. reflexivity.
  - destruct (String.eqb (Log.idempotency_key old) (Log.idempotency_key r)) eqn:Hk; simpl.
    + rewrite Hk. reflexivity.
    + rewrite Hk. exact IH.
Qed.

(** The rows under the other keys are left as they were. *)
Lemma lookup_upsert_other (k : string) (r : Log.row) (table : list Log.row) :
  k <> Log.idempotency_key r ->
  lookup k (upsert r table) = lookup k table.
Proof.
  unfold lookup. intros Hk. induction table as [|old rest IH]; simpl.
  - destruct (String.eqb_spec (Log.idempotency_key r) k); [congruence|reflexivity].
  - destruct (String.eqb_spec (Log.idempotency_key old) (Log.idempotency_key r)) as [He|He]; simpl.
    + rewrite He. destruct (String.eqb_spec (Log.idempotency_key r) k); [congruence|reflexivity].
    + destruct (String.eqb (Log.idempotency_key old) k); [reflexivity|exact IH].
Qed.

(** The upsert keeps one row per idempotency key. *)
Lemma upsert_keys (r : Log.row) (table : list Log.row) :
  map Log.idempotency_key (upsert r table)
  = if existsb (fun old => String.eqb (Log.idempotency_key old) (Log.idempotency_key r)) table
    then map Log.idempotency_key table
    else map Log.idempotency_key table ++ [Log.idempotency_key r].
Proof.
  induction table as [|old rest IH]; simpl; [reflexivity|].
  destruct (String.eqb (Log.idempotency_key old) (Log.idempotency_key r)); simpl.
  - reflexivity.
  - rewrite IH. destruct (existsb _ rest); reflexivity.
Qed.

Lemma upsert_NoDup (r : Log.row) (table : list Log.row) :
  NoDup (map Log.idempotency_key table) ->
  NoDup (map Log.idempotency_key (upsert r table)).
Proof.
  intros Hnd. rewrite upsert_keys.
  destruct (existsb _ table) eqn:Hex; [exact Hnd|].
  apply NoDup_app; [exact Hnd|repeat constructor; intros []|].
  intros k Hin [<- | []].
  apply in_map_iff in Hin. destruct Hin as (old & Hk & Hold).
  assert (Htrue : existsb (fun old => String.eqb (Log.idempotency_key old)
                                        (Log.idempotency_key r)) table = true).
  { apply existsb_exists. exists old. split; [exact Hold|].
    apply String.eqb_eq. exact Hk. }
  congruence.
Qed.

Lemma extendsActive_refl (table : list Log.row) : extendsActive table table.
Proof.
  exists table, []. rewrite app_nil_r. split; [reflexivity|]. split; [|constructor].
  induction table; constructor; auto.
Qed.

Lemma extendsActive_trans (t1 t2 t3 : list Log.row) :
  extendsActive t1 t2 -> extendsActive t2 t3 -> extendsActive t1 t3.
Proof.
  intros (k1 & a1 & -> & H1 & Ha1) (k2 & a2 & -> & H2 & Ha2).
  apply Forall2_app_inv_l in H2. destruct H2 as (k2a & k2b & Hk & Ha & ->).
  exists k2a, (k2b ++ a2). split; [rewrite app_assoc; reflexivity|]. split.
  - clear -H1 Hk. revert k2a Hk.
    induction H1 as [|x y l l' [Hxy Hxy'] Hl IH]; intros k2a Hk;
      inversion Hk as [|? z ? l'' [Hyz Hyz'] Hl'']; subst; constructor.
    + split; congruence.
    + apply IH. assumption.
  - apply Forall_app. split; [|exact Ha2].
    clear -Ha Ha1. revert Ha1.
    induction Ha as [|x y l l' [_ Hst] _ IH]; intros Ha1; [constructor|].
    inversion Ha1; subst. constructor; [congruence|auto].
Qed.

Lemma upsert_extendsActive (r : Log.row) (table : list Log.row) :
  Log.status r = "active" -> extendsActive table (upsert r table).
Proof.
  intros Hr. induction table as [|old rest IH]; simpl.
  - exists [], [r]. split; [reflexivity|]. split; constructor; [exact Hr|constructor].
  - destruct (String.eqb (Log.idempotency_key old) (Log.idempotency_key r)).
    + destruct (extendsActive_refl rest) as (k & a & Hka & Hk & Ha).
      exists (onConflict old r :: k), a. split; [simpl; congruence|].
      split; [|exact Ha]. constructor; [split; reflexivity|exact Hk].
    + destruct IH as (k & a & Hka & Hk & Ha).
      exists (old :: k), a. split; [simpl; congruence|].
      split; [|exact Ha]. constructor; [split; reflexivity|exact Hk].
Qed.

Lemma writeSegments_extendsActive (tickMode : string) (ws we : Z)
    (segs : list segment) (table table' : list Log.row) :
  writeSegments tickMode ws we segs table = Some table' ->
  extendsActive table table'.
Proof.
  revert table. induction segs as [|seg segs IH]; intros table; simpl.
  - intros [= <-]. apply extendsActive_refl.
  - destruct (segmentEnd seg) as [segEnd|]; [|discriminate].
    intros H. eapply extendsActive_trans; [|exact (IH _ H)].
    apply upsert_extendsActive. reflexivity.
Qed.

(** C6. A tick leaves [dev_transcripts_raw] and [dev_user_context] as they
    were; in [dev_session_logs] every stored row stays in place with its key
    and its status, and every row added has status 'active': the inserted
    row carries 'active' and the conflict branch keeps the stored status. *)
Theorem tick_writes_only_session_logs (tz : JsDate.zone) (now : Z) (db : database) :
  dev_transcripts_raw (processTick tz now db) = dev_transcripts_raw db
  /\ dev_user_context (processTick tz now db) = dev_user_context db
  /\ extendsActive (dev_session_logs db) (dev_session_logs (processTick tz now db))
  /\ (forall tickMode ws we seg segEnd,
        Log.status (insertedRow tickMode ws we seg segEnd) = "active")
  /\ (forall old excluded,
        Log.status (onConflict old excluded) = Log.status old).
Proof.
  unfold processTick.
  destruct (Pg.selectRawEvents _ _ _ _) as [|e l].
  - repeat split. apply extendsActive_refl.
  - destruct (writeSegments _ _ _ _ _) as [logs|] eqn:Hw.
    + simpl. repeat split. exact (writeSegments_extendsActive _ _ _ _ _ _ Hw).
    + repeat split. apply extendsActive_refl.
Qed.

End WriterFacts.

(** ** Device tags and version markers, from the segmenter to the stored row *)

Section PipelineFacts.
Import Js Chad Spec.

Context {builtins : PcTag.Builtins}.

Variable client : database.
Variable tickMode : string.

Lemma buildSegments_wellFormed (rawEvents : list Raw.event) :
  Forall (wellFormed client tickMode) (buildSegments client tickMode rawEvents).
Proof.
  destruct rawEvents as [|e l]; [constructor|].
  assert (Hne : e :: l <> []) by discriminate.
  exact (proj1 (proj2 (buildSegments_spec client tickMode (e :: l) Hne))).
Qed.

Lemma replaceDisallowed_units (s : PcTag.units) :
  PcTag.replaceDisallowed s = string_of_list_ascii (map replaced s).
Proof.
  induction s as [|u s IH]; simpl; [reflexivity|].
  rewrite IH. reflexivity.
Qed.

Lemma allowed_range (u : Z) : PcTag.allowed u = true -> 45 <= u <= 122.
Proof.
  unfold PcTag.allowed, PcTag.between.
  rewrite !orb_true_iff, !andb_true_iff, !Z.leb_le, Z.eqb_eq. lia.
Qed.

Lemma allowed_unit_back (u : Z) :
  PcTag.allowed u = true ->
  Z.of_nat (nat_of_ascii (ascii_of_nat (Z.to_nat u))) = u.
Proof.
  intros H. apply allowed_range in H.
  rewrite nat_ascii_embedding by lia. lia.
Qed.

Lemma replaced_inClass (u : Z) : inClass (replaced u) = true.
Proof.
  unfold inClass, replaced. destruct (PcTag.allowed u) eqn:Hu; [|reflexivity].
  rewrite (allowed_unit_back u Hu). exact Hu.
Qed.

Lemma replaceDisallowed_inClass (s : PcTag.units) :
  forallb inClass (list_ascii_of_string (PcTag.replaceDisallowed s)) = true.
Proof.
  induction s as [|u s IH]; simpl; [reflexivity|].
  fold (replaced u). rewrite replaced_inClass, IH. reflexivity.
Qed.

(** C8. A null or empty tag normalises to 'studio-terminals'; any other
    tag is lower-cased by the host's [toLowerCase] and then, unit by unit,
    a unit of [a-z0-9-] stays and any other becomes '-', so that the result
    has only characters of [a-z0-9-].  The context of an event is looked up
    under the normalised tag of the event, and the row stored for a segment
    holds the normalised form of the tag it stores, which is the tag under
    which the context of the segment's first event was looked up. *)
Theorem normalizePcTag_lookup_and_store (tag : option PcTag.units)
    (rawEvents : list Raw.event) (seg : segment) (ws we segEnd : Z) :
  In seg (buildSegments client tickMode rawEvents) ->
  PcTag.normalizePcTag tag
  = match tag with
    | Some (u :: s) =>
        string_of_list_ascii (map replaced (PcTag.toLowerCase (u :: s)))
    | _ => "studio-terminals"
    end
  /\ forallb inClass (list_ascii_of_string (PcTag.normalizePcTag tag)) = true
  /\ (forall e,
        contextOf client e
        = resolveContext client (Raw.original_timestamp e)
            (PcTag.normalizePcTag (Raw.pc_tag e)))
  /\ Log.pc_tag_norm (insertedRow tickMode ws we seg segEnd)
     = PcTag.normalizePcTag (Log.pc_tag (insertedRow tickMode ws we seg segEnd))
  /\ exists first rest,
       events seg = first :: rest
       /\ Log.pc_tag (insertedRow tickMode ws we seg segEnd) = Raw.pc_tag first
       /\ projectId seg
          = projectIdOf
              (resolveContext client (Raw.original_timestamp first)
                 (Log.pc_tag_norm (insertedRow tickMode ws we seg segEnd))).
Proof.
  intros Hin.
  split; [|split; [|split; [reflexivity|split; [reflexivity|]]]].
  - destruct tag as [[|u s]|]; try reflexivity.
    unfold PcTag.normalizePcTag. apply replaceDisallowed_units.
  - destruct tag as [[|u s]|]; try reflexivity.
    unfold PcTag.normalizePcTag. apply replaceDisallowed_inClass.
  - pose proof (buildSegments_wellFormed rawEvents) as Hwf.
    rewrite Forall_forall in Hwf.
    destruct (Hwf seg Hin) as (f & rest & x & -> & _).
    exists f, rest. repeat split.
Qed.

(** C10. When a segment of the segmenter is stored under a key the table
    does not have yet, the stored minimum and maximum version markers are
    the least and the greatest [context_version] among the segment's events,
    and both are null when no event of the segment has one. *)
Theorem first_insert_version_markers (rawEvents : list Raw.event)
    (seg : segment) (ws we segEnd : Z) (table : list Log.row) :
  In seg (buildSegments client tickMode rawEvents) ->
  segmentEnd seg = Some segEnd ->
  lookup (idempotencyKey tickMode seg segEnd) table = None ->
  exists r,
    lookup (idempotencyKey tickMode seg segEnd)
      (upsert (insertedRow tickMode ws we seg segEnd) table) = Some r
    /\ isMinOf (versionsOf (events seg)) (Log.context_version_min r)
    /\ isMaxOf (versionsOf (events seg)) (Log.context_version_max r)
    /\ (versionsOf (events seg) = [] ->
        Log.context_version_min r = None /\ Log.context_version_max r = None).
Proof.
  intros Hin Hend Hfresh.
  pose proof (buildSegments_wellFormed rawEvents) as Hwf.
  rewrite Forall_forall in Hwf.
  destruct (Hwf seg Hin) as (f & rest & x & Hseg & _).
  assert (Hcv : contextVersions seg = versionsOf (events seg))
    by (rewrite Hseg; reflexivity).
  exists (insertedRow tickMode ws we seg segEnd).
  split.
  - pose proof (lookup_upsert_same (insertedRow tickMode ws we seg segEnd) table) as H.
    simpl Log.idempotency_key in H. rewrite Hfresh in H. exact H.
  - simpl. rewrite Hcv. split; [apply minOrNull_isMinOf|].
    split; [apply maxOrNull_isMaxOf|].
    intros ->. split; reflexivity.
Qed.

(** Every segment of the segmenter is closed, so the writer never throws. *)
Lemma writeSegments_closed (ws we : Z) (segs : list segment) (table : list Log.row) :
  Forall (fun s => segmentEnd s <> None) segs ->
  exists table', writeSegments tickMode ws we segs table = Some table'.
Proof.
  revert table. induction segs as [|seg segs IH]; intros table Hall; simpl.
  - exists table. reflexivity.
  - inversion Hall as [|? ? Hseg Hrest]; subst.
    destruct (segmentEnd seg) as [segEnd|]; [|contradiction].
    apply IH. exact Hrest.
Qed.

Lemma writeSegments_buildSegments (ws we : Z) (rawEvents : list Raw.event)
    (table : list Log.row) :
  exists table',
    writeSegments tickMode ws we (buildSegments client tickMode rawEvents) table
    = Some table'.
Proof.
  apply writeSegments_closed.
  destruct rawEvents as [|e l]; [constructor|].
  assert (Hne : e :: l <> []) by discriminate.
  exact (proj2 (proj2 (proj2 (proj2
           (buildSegments_spec client tickMode (e :: l) Hne))))).
Qed.

End PipelineFacts.

(** A tick with events always commits what the writer produced. *)
Lemma processTick_commits {builtins : PcTag.Builtins}
    (tz : JsDate.zone) (now : Z) (db : database) :
  let tickTime := TimeAligner.floorToQuarterHour tz now in
  let tickMode := TimeAligner.modeFor tz tickTime in
  let windowStart := tickTime - 30 * 60 * 1000 in
  let rawEvents :=
    Pg.selectRawEvents (dev_transcripts_raw db) windowStart tickTime tickMode in
  rawEvents <> [] ->
  exists logs,
    Chad.writeSegments tickMode windowStart tickTime
      (Chad.buildSegments db tickMode rawEvents) (dev_session_logs db) = Some logs
    /\ Chad.processTick tz now db = Chad.withSessionLogs db logs.
Proof.
  intros tickTime tickMode windowStart rawEvents Hne.
  destruct (writeSegments_buildSegments db tickMode windowStart tickTime
              rawEvents (dev_session_logs db)) as [logs Hlogs].
  exists logs. split; [exact Hlogs|].
  unfold Chad.processTick.
  fold tickTime. fold tickMode. fold windowStart. fold rawEvents.
  destruct rawEvents as [|e l]; [contradiction|].
  rewrite Hlogs. reflexivity.
Qed.

(** ** The window query *)

Section QueryFacts.

Lemma insertByTime_In (e x : Raw.event) (l : list Raw.event) :
  In x (Pg.insertByTime e l) -> x = e \/ In x l.
Proof.
  induction l as [|a l IH]; simpl.
  - intros [<- | []]. left. reflexivity.
  - destruct (Raw.original_timestamp e <? Raw.original_timestamp a).
    + intros [<- | H]; [left; reflexivity|right; exact H].
    + intros [<- | H]; [right; left; reflexivity|].
      destruct (IH H) as [-> | Hin]; [left; reflexivity|right; right; exact Hin].
Qed.

Lemma insertByTime_sorted (e : Raw.event) (l : list Raw.event) :
  StronglySorted Z.le (map Raw.original_timestamp l) ->
  StronglySorted Z.le (map Raw.original_timestamp (Pg.insertByTime e l)).
Proof.
  induction l as [|a l IH]; simpl; intros Hs.
  - constructor; constructor.
  - inversion Hs as [|? ? Hs' Hall]; subst.
    destruct (Z.ltb_spec (Raw.original_timestamp e) (Raw.original_timestamp a)) as [Hlt | Hge].
    + simpl. constructor; [exact Hs|].
      constructor; [lia|]. revert Hall. apply Forall_impl. intros z Hz. lia.
    + simpl. constructor; [exact (IH Hs')|].
      apply Forall_forall. intros z Hz.
      apply in_map_iff in Hz. destruct Hz as (x & <- & Hx).
      destruct (insertByTime_In e x l Hx) as [-> | Hin]; [exact Hge|].
      rewrite Forall_forall in Hall. apply Hall. apply in_map. exact Hin.
Qed.

Lemma orderByTime_sorted (l : list Raw.event) :
  StronglySorted Z.le (map Raw.original_timestamp (Pg.orderByTime l)).
Proof.
  unfold Pg.orderByTime.
  assert (H : forall acc,
             StronglySorted Z.le (map Raw.original_timestamp acc) ->
             StronglySorted Z.le
               (map Raw.original_timestamp
                  (fold_left (fun acc e => Pg.insertByTime e acc) l acc))).
  { induction l as [|e l IH]; intros acc Hacc; simpl; [exact Hacc|].
    apply IH. apply insertByTime_sorted. exact Hacc. }
  apply H. constructor.
Qed.

(** The events a tick fetches are in ascending time order. *)
Lemma selectRawEvents_sorted (table : list Raw.event) (ws we : Z) (tickMode : string) :
  Sorted Z.le
    (map Raw.original_timestamp (Pg.selectRawEvents table ws we tickMode)).
Proof.
  apply StronglySorted_Sorted. unfold Pg.selectRawEvents. apply orderByTime_sorted.
Qed.

End QueryFacts.

(** ** The worked window, and what a second tick does to it *)

Section WorkedWindow.
Import Js Chad Spec.

#[local] Existing Instance Scenario.builtins.

Lemma segments_partition_input_witness :
  Scenario.events <> []
  /\ Sorted Z.le (map Raw.original_timestamp Scenario.events)
  /\ let segs := buildSegments Scenario.db "internal" Scenario.events in
     List.concat (map events segs) = Scenario.events
     /\ Forall (fun s => events s <> []) segs
     /\ consecutive (fun a b => projectId a <> projectId b) segs
     /\ consecutive
          (fun a b =>
             segmentStart a <= segmentStart b
             /\ forall ea eb, In ea (events a) -> In eb (events b) ->
                  Raw.original_timestamp ea <= Raw.original_timestamp eb) segs
     /\ Forall
          (fun s =>
             exists segEnd,
               segmentEnd s = Some segEnd
               /\ forall ev, In ev (events s) ->
                    segmentStart s <= Raw.original_timestamp ev <= segEnd) segs.
Proof.
  assert (H1 : Scenario.events <> []) by discriminate.
  assert (H2 : Sorted Z.le (map Raw.original_timestamp Scenario.events))
    by (repeat constructor; vm_compute; discriminate).
  exact (conj H1 (conj H2
           (segments_partition_input Scenario.db "internal" Scenario.events H1 H2))).
Defined.

Lemma segment_ends_at_next_start_witness :
  Scenario.events <> []
  /\ let segs := buildSegments Scenario.db "internal" Scenario.events in
     consecutive
       (fun a b =>
          exists first rest,
            events b = first :: rest
            /\ segmentEnd a = Some (Raw.original_timestamp first)) segs
     /\ (exists init lastSeg lastEv,
           segs = init ++ [lastSeg]
           /\ lastOf (events lastSeg) = Some lastEv
           /\ segmentEnd lastSeg = Some (Raw.original_timestamp lastEv))
     /\ map Scenario.summary
          (buildSegments Scenario.db "internal"
             (Pg.selectRawEvents (dev_transcripts_raw Scenario.db)
                Scenario.t_10_00 Scenario.t_10_30 "internal"))
        = [ (JStr "P1", Scenario.t_10_05, Some Scenario.t_10_20, 2%nat);
            (JStr "P2", Scenario.t_10_20, Some Scenario.t_10_20, 1%nat) ].
Proof.
  assert (H1 : Scenario.events <> []) by discriminate.
  exact (conj H1
           (segment_ends_at_next_start Scenario.db "internal" Scenario.events H1)).
Defined.

Lemma absent_context_is_unassigned_witness :
  Scenario.strays <> []
  /\ Forall (fun e => contextOf Scenario.db e = None) Scenario.strays
  /\ Forall (fun e => keyOf Scenario.db e = JStr "UNASSIGNED") Scenario.strays
  /\ truthy (JStr "UNASSIGNED") = true
  /\ exists seg before after,
       In seg (buildSegments Scenario.db "internal"
                 ([Scenario.e1] ++ Scenario.strays ++ [Scenario.e3]))
       /\ projectId seg = JStr "UNASSIGNED"
       /\ events seg = before ++ Scenario.strays ++ after.
Proof.
  assert (H1 : Scenario.strays <> []) by discriminate.
  assert (H2 : Forall (fun e => contextOf Scenario.db e = None) Scenario.strays)
    by (repeat constructor).
  exact (conj H1 (conj H2
           (absent_context_is_unassigned Scenario.db "internal"
              [Scenario.e1] Scenario.strays [Scenario.e3] H1 H2))).
Defined.

Lemma firstSegment_built :
  In Scenario.firstSegment (buildSegments Scenario.db "internal" Scenario.events).
Proof. left. reflexivity. Defined.

Lemma normalizePcTag_lookup_and_store_witness :
  In Scenario.firstSegment (buildSegments Scenario.db "internal" Scenario.events)
  /\ PcTag.normalizePcTag (Some (PcTag.unitsOf "Dev PC_1.x"))
     = string_of_list_ascii
         (map replaced (PcTag.toLowerCase (PcTag.unitsOf "Dev PC_1.x")))
  /\ forallb inClass
       (list_ascii_of_string
          (PcTag.normalizePcTag (Some (PcTag.unitsOf "Dev PC_1.x")))) = true
  /\ (forall e,
        contextOf Scenario.db e
        = resolveContext Scenario.db (Raw.original_timestamp e)
            (PcTag.normalizePcTag (Raw.pc_tag e)))
  /\ Log.pc_tag_norm
       (insertedRow "internal" Scenario.t_10_00 Scenario.t_10_30
          Scenario.firstSegment Scenario.t_10_20)
     = PcTag.normalizePcTag
         (Log.pc_tag
            (insertedRow "internal" Scenario.t_10_00 Scenario.t_10_30
               Scenario.firstSegment Scenario.t_10_20))
  /\ exists first rest,
       events Scenario.firstSegment = first :: rest
       /\ Log.pc_tag
            (insertedRow "internal" Scenario.t_10_00 Scenario.t_10_30
               Scenario.firstSegment Scenario.t_10_20) = Raw.pc_tag first
       /\ projectId Scenario.firstSegment
          = projectIdOf
              (resolveContext Scenario.db (Raw.original_timestamp first)
                 (Log.pc_tag_norm
                    (insertedRow "internal" Scenario.t_10_00 Scenario.t_10_30
                       Scenario.firstSegment Scenario.t_10_20))).
Proof.
  exact (conj firstSegment_built
           (normalizePcTag_lookup_and_store Scenario.db "internal"
              (Some (PcTag.unitsOf "Dev PC_1.x")) Scenario.events
              Scenario.firstSegment
              Scenario.t_10_00 Scenario.t_10_30 Scenario.t_10_20
              firstSegment_built)).
Defined.

Example normalizePcTag_mixed :
  PcTag.normalizePcTag (Some (PcTag.unitsOf "Dev PC_1.x")) = "dev-pc-1-x".
Proof. reflexivity. Qed.

Example normalizePcTag_missing :
  PcTag.normalizePcTag None = "studio-terminals"
  /\ PcTag.normalizePcTag (Some []) = "studio-terminals".
Proof. split; reflexivity. Qed.

Lemma first_insert_version_markers_witness :
  In Scenario.firstSegment (buildSegments Scenario.db "internal" Scenario.events)
  /\ segmentEnd Scenario.firstSegment = Some Scenario.t_10_20
  /\ lookup (idempotencyKey "internal" Scenario.firstSegment Scenario.t_10_20) [] = None
  /\ exists r,
       lookup (idempotencyKey "internal" Scenario.firstSegment Scenario.t_10_20)
         (upsert (insertedRow "internal" Scenario.t_10_00 Scenario.t_10_30
                    Scenario.firstSegment Scenario.t_10_20) []) = Some r
       /\ isMinOf (versionsOf (events Scenario.firstSegment)) (Log.context_version_min r)
       /\ isMaxOf (versionsOf (events Scenario.firstSegment)) (Log.context_version_max r)
       /\ (versionsOf (events Scenario.firstSegment) = [] ->
           Log.context_version_min r = None /\ Log.context_version_max r = None).
Proof.
  split; [exact firstSegment_built|]. split; [reflexivity|]. split; [reflexivity|].
  exact (first_insert_version_markers Scenario.db "internal" Scenario.events
           Scenario.firstSegment Scenario.t_10_00 Scenario.t_10_30
           Scenario.t_10_20 [] firstSegment_built eq_refl eq_refl).
Defined.

(** What the conflict branch does to each merged column. *)
Lemma onConflict_columns (old excluded : Log.row) :
  Log.last_ts (onConflict old excluded)
  = Z.max (Log.last_ts old) (Log.last_ts excluded)
  /\ Log.segment_end (onConflict old excluded)
     = Z.max (Log.segment_end old) (Log.segment_end excluded)
  /\ Log.context_version_max (onConflict old excluded)
     = Pg.greatest (Log.context_version_max old) (Log.context_version_max excluded)
  /\ Log.context_version_min (onConflict old excluded)
     = Log.context_version_min old
  /\ Log.raw_count (onConflict old excluded)
     = Log.raw_count old + Log.raw_count excluded
  /\ Log.raw_refs (onConflict old excluded)
     = Log.raw_refs old ++ Log.raw_refs excluded.
Proof. repeat split. Qed.

(** Writing one row twice under a fresh key stores it merged with itself. *)
Lemma upsert_twice (r : Log.row) (table : list Log.row) :
  lookup (Log.idempotency_key r) table = None ->
  lookup (Log.idempotency_key r) (upsert r (upsert r table))
  = Some (onConflict r r).
Proof.
  intros Hfresh.
  rewrite lookup_upsert_same, lookup_upsert_same, Hfresh. reflexivity.
Qed.

(** C1. In the worked window a second tick at the same instant on the
    database the first tick committed keeps one row per idempotency key,
    but stores every count doubled and every event reference twice: the
    writer is not idempotent. *)
Theorem second_tick_doubles_counts :
  let once := processTick JsDate.utc Scenario.now Scenario.db in
  let twice := processTick JsDate.utc Scenario.now once in
  map Log.idempotency_key (dev_session_logs twice)
  = map Log.idempotency_key (dev_session_logs once)
  /\ map Scenario.counts (dev_session_logs once)
     = [ (2, 2, [JNum 1; JNum 2]); (1, 1, [JNum 3]) ]
  /\ map Scenario.counts (dev_session_logs twice)
     = [ (4, 4, [JNum 1; JNum 2; JNum 1; JNum 2]); (2, 2, [JNum 3; JNum 3]) ]
  /\ dev_session_logs twice <> dev_session_logs once.
Proof.
  vm_compute. repeat split. discriminate.
Qed.

(** C2. In the worked window, after two late events with versions 3 and 9
    reach the raw table, a second tick meets the row of the first tick under
    the same idempotency key: the stored maximum version becomes 9, the
    greater of 5 and 9, but the stored minimum version stays 5 although the
    incoming segment has minimum 3. *)
Theorem conflict_keeps_stored_version_min :
  let first := processTick JsDate.utc Scenario.now Scenario.db in
  let second := processTick JsDate.utc Scenario.now (Scenario.withLateEvents first) in
  map Log.idempotency_key (dev_session_logs second)
  = map Log.idempotency_key (dev_session_logs first)
  /\ map Scenario.versions (dev_session_logs first)
     = [ (Some 5, Some 5); (None, None) ]
  /\ map (fun s => (minOrNull (contextVersions s), maxOrNull (contextVersions s)))
       (buildSegments (Scenario.withLateEvents first) "internal"
          (Pg.selectRawEvents (dev_transcripts_raw (Scenario.withLateEvents first))
             Scenario.t_10_00 Scenario.t_10_30 "internal"))
     = [ (Some 3, Some 9); (None, None) ]
  /\ map Scenario.versions (dev_session_logs second)
     = [ (Some 5, Some 9); (None, None) ].
Proof.
  vm_compute. repeat split.
Qed.

End WorkedWindow.

(* ================================================================== *)
(** * Further properties                                               *)
(* ================================================================== *)

(** ** The quarter-hour grid *)

Section GridFacts.
Import JsDate TimeAligner Laws.

Variable tza : Z.

Ltac grid_arith :=
  unfold onQuarter, msUntilNextQuarter, floorToQuarterHour, quarterIndex,
    getMinutes, setMinutes3, setMinutes1, LocalTime, UTC, LocalTZA, fixed,
    MakeDate, MakeTime, Day, HourFromTime, MinFromTime, SecFromTime,
    msFromTime, msPerDay, msPerHour, msPerMinute, msPerSecond in *;
  cbn [baseOffset transitions offsetAtUTC offsetAtLocal] in *;
  Z.to_euclidean_division_equations; lia.

Lemma onQuarter_iff (t : Z) : onQuarter (fixed tza) t <-> (t + tza) mod 900000 = 0.
Proof.
  unfold onQuarter. rewrite floorToQuarterHour_eq. split; intros H; lia.
Qed.

(** X1. Flooring an instant gives the last quarter-hour boundary of local
    time at or before it: the result is at most the instant and less than
    15 minutes before it, its local minutes are 15 times the instant's
    quarter index and its seconds and milliseconds are zero, and flooring
    it again changes nothing. *)
Theorem floorToQuarterHour_boundary (date : Z) :
  let tick := floorToQuarterHour (fixed tza) date in
  tick <= date < tick + 900000
  /\ getMinutes (fixed tza) tick = 15 * quarterIndex (fixed tza) date
  /\ SecFromTime (LocalTime (fixed tza) tick) = 0
  /\ msFromTime (LocalTime (fixed tza) tick) = 0
  /\ floorToQuarterHour (fixed tza) tick = tick.
Proof.
  intros tick. subst tick.
  split; [rewrite floorToQuarterHour_eq; Z.to_euclidean_division_equations; lia|].
  split; [grid_arith|]. split; [grid_arith|]. split; [grid_arith|].
  rewrite !floorToQuarterHour_eq. Z.to_euclidean_division_equations; lia.
Qed.

(** X2. On a host whose local time is at a fixed offset from UTC, the
    computed wait is strictly positive and at most 15 minutes, and sleeping
    for it ends exactly on the next quarter-hour boundary: the wake-up
    instant is the current tick time plus 15 minutes, it is its own tick
    time, its mode is the other mode, and from there the next wait is a full
    15 minutes. *)
Theorem wait_ends_on_next_tick (now : Z) :
  let wake := now + msUntilNextQuarter (fixed tza) now in
  0 < msUntilNextQuarter (fixed tza) now <= 900000
  /\ wake = floorToQuarterHour (fixed tza) now + 900000
  /\ floorToQuarterHour (fixed tza) wake = wake
  /\ modeFor (fixed tza) wake <> modeFor (fixed tza) (floorToQuarterHour (fixed tza) now)
  /\ msUntilNextQuarter (fixed tza) wake = 900000.
Proof.
  intros wake.
  assert (Hwake : wake = floorToQuarterHour (fixed tza) now + 900000).
  { subst wake. rewrite msUntilNextQuarter_eq, floorToQuarterHour_eq. lia. }
  split; [exact (proj1 (msUntilNextQuarter_fixed_range tza now))|].
  split; [exact Hwake|]. rewrite Hwake. split; [|split].
  - rewrite !floorToQuarterHour_eq. Z.to_euclidean_division_equations; lia.
  - apply modeFor_next.
  - rewrite msUntilNextQuarter_eq, floorToQuarterHour_eq.
    Z.to_euclidean_division_equations; lia.
Qed.

Lemma modeFor_values (t : Z) :
  modeFor (fixed tza) t = "internal" \/ modeFor (fixed tza) t = "external".
Proof.
  rewrite modeFor_cases.
  destruct ((quarterIndex (fixed tza) t =? 0) || (quarterIndex (fixed tza) t =? 2))%bool; auto.
Qed.

(** For each of the two modes, an instant lies in the 30 minutes before
    exactly one boundary T whose tick has that mode. *)
Lemma one_window_per_mode (t : Z) (m : string) :
  m = "internal" \/ m = "external" ->
  exists T,
    (onQuarter (fixed tza) T /\ modeFor (fixed tza) T = m /\ T - 1800000 <= t < T)
    /\ forall T',
         onQuarter (fixed tza) T' /\ modeFor (fixed tza) T' = m /\ T' - 1800000 <= t < T' ->
         T' = T.
Proof.
  intros Hm.
  set (F := floorToQuarterHour (fixed tza) t).
  assert (HF : F = t - (t + tza) mod 900000) by apply floorToQuarterHour_eq.
  assert (Hcand : forall T', onQuarter (fixed tza) T' -> T' - 1800000 <= t < T' ->
                    T' = F + 900000 \/ T' = F + 1800000).
  { intros T' Hq Hin. apply onQuarter_iff in Hq.
    revert Hq Hin. rewrite HF. Z.to_euclidean_division_equations; lia. }
  assert (Hq1 : onQuarter (fixed tza) (F + 900000)).
  { apply onQuarter_iff. rewrite HF. Z.to_euclidean_division_equations; lia. }
  assert (Hq2 : onQuarter (fixed tza) (F + 1800000)).
  { apply onQuarter_iff. rewrite HF. Z.to_euclidean_division_equations; lia. }
  assert (Hin1 : F + 900000 - 1800000 <= t < F + 900000).
  { rewrite HF. Z.to_euclidean_division_equations; lia. }
  assert (Hin2 : F + 1800000 - 1800000 <= t < F + 1800000).
  { rewrite HF. Z.to_euclidean_division_equations; lia. }
  pose proof (modeFor_next tza (F + 900000)) as Hflip.
  replace (F + 900000 + 900000) with (F + 1800000) in Hflip by lia.
  destruct (modeFor_values (F + 900000)) as [H1 | H1];
    destruct (modeFor_values (F + 1800000)) as [H2 | H2];
    try (rewrite H1, H2 in Hflip; contradiction);
    destruct Hm as [-> | ->].
  - exists (F + 900000). split; [auto|].
    intros T' (Hq & Hmode & Hin).
    destruct (Hcand T' Hq Hin) as [-> | ->]; [reflexivity|congruence].
  - exists (F + 1800000). split; [auto|].
    intros T' (Hq & Hmode & Hin).
    destruct (Hcand T' Hq Hin) as [-> | ->]; [congruence|reflexivity].
  - exists (F + 1800000). split; [auto|].
    intros T' (Hq & Hmode & Hin).
    destruct (Hcand T' Hq Hin) as [-> | ->]; [congruence|reflexivity].
  - exists (F + 900000). split; [auto|].
    intros T' (Hq & Hmode & Hin).
    destruct (Hcand T' Hq Hin) as [-> | ->]; [reflexivity|congruence].
Qed.

End GridFacts.

(** ** The two queries *)

Section QueryLaws.
Import Js Chad Laws.

Context {builtins : PcTag.Builtins}.

Lemma contextMatches_covers (pcTag : string) (timestamp : Z) (r : Ctx.row) :
  Pg.contextMatches pcTag timestamp r = true <-> covers pcTag timestamp r.
Proof.
  unfold Pg.contextMatches, covers.
  rewrite !andb_true_iff, strictEq_true_iff, Z.leb_le.
  destruct (Ctx.ended_at r) as [e|].
  - rewrite Z.ltb_lt. tauto.
  - intuition.
Qed.

Lemma latestStarted_from (rows : list Ctx.row) (b : Ctx.row) :
  exists r,
    fold_left
      (fun best r =>
         match best with
         | None => Some r
         | Some b => if Ctx.started_at b <? Ctx.started_at r then Some r else best
         end) rows (Some b) = Some r
    /\ (r = b \/ In r rows)
    /\ Ctx.started_at b <= Ctx.started_at r
    /\ forall r', In r' rows -> Ctx.started_at r' <= Ctx.started_at r.
Proof.
  revert b. induction rows as [|a rows IH]; intros b; simpl.
  - exists b. split; [reflexivity|]. split; [left; reflexivity|].
    split; [lia|]. intros r' [].
  - destruct (Z.ltb_spec (Ctx.started_at b) (Ctx.started_at a)) as [Hlt | Hge].
    + destruct (IH a) as (r & Hr & Hin & Hle & Hall). exists r.
      split; [exact Hr|]. split; [destruct Hin; auto|]. split; [lia|].
      intros r' [<- | Hr']; [exact Hle|exact (Hall r' Hr')].
    + destruct (IH b) as (r & Hr & Hin & Hle & Hall). exists r.
      split; [exact Hr|]. split; [destruct Hin; auto|]. split; [lia|].
      intros r' [<- | Hr']; [lia|exact (Hall r' Hr')].
Qed.

Lemma latestStarted_spec (rows : list Ctx.row) :
  match Pg.latestStarted rows with
  | Some r => In r rows /\ forall r', In r' rows -> Ctx.started_at r' <= Ctx.started_at r
  | None => rows = []
  end.
Proof.
  unfold Pg.latestStarted. destruct rows as [|a rows]; simpl; [reflexivity|].
  destruct (latestStarted_from rows a) as (r & -> & Hin & Hle & Hall).
  split; [destruct Hin; auto|].
  intros r' [<- | Hr']; [exact Hle|exact (Hall r' Hr')].
Qed.

(** X4. When the context lookup returns a row, that row is in
    [dev_user_context], has the looked-up tag, started at or before the
    timestamp and has not ended by it, and no other such row started later;
    when it returns nothing, no row of the table is such a row. *)
Theorem resolveContext_latest (client : database) (timestamp : Z) (pcTag : string) :
  match resolveContext client timestamp pcTag with
  | Some r =>
      In r (dev_user_context client)
      /\ covers pcTag timestamp r
      /\ forall r', In r' (dev_user_context client) -> covers pcTag timestamp r' ->
           Ctx.started_at r' <= Ctx.started_at r
  | None =>
      forall r', In r' (dev_user_context client) -> ~ covers pcTag timestamp r'
  end.
Proof.
  unfold resolveContext.
  pose proof (latestStarted_spec
                (filter (Pg.contextMatches pcTag timestamp) (dev_user_context client)))
    as H.
  destruct (Pg.latestStarted _) as [r|].
  - destruct H as [Hin Hmax]. apply filter_In in Hin. destruct Hin as [Hin Hm].
    split; [exact Hin|]. split; [apply contextMatches_covers; exact Hm|].
    intros r' Hr' Hc. apply Hmax. apply filter_In.
    split; [exact Hr'|apply contextMatches_covers; exact Hc].
  - intros r' Hr' Hc.
    assert (Hf : In r' (filter (Pg.contextMatches pcTag timestamp)
                          (dev_user_context client))).
    { apply filter_In. split; [exact Hr'|apply contextMatches_covers; exact Hc]. }
    rewrite H in Hf. exact Hf.
Qed.

Lemma insertByTime_perm (e : Raw.event) (l : list Raw.event) :
  Permutation (Pg.insertByTime e l) (e :: l).
Proof.
  induction l as [|a l IH]; simpl; [reflexivity|].
  destruct (Raw.original_timestamp e <? Raw.original_timestamp a); [reflexivity|].
  rewrite IH. apply perm_swap.
Qed.

Lemma orderByTime_perm (l : list Raw.event) : Permutation (Pg.orderByTime l) l.
Proof.
  unfold Pg.orderByTime.
  assert (H : forall acc,
             Permutation (fold_left (fun acc e => Pg.insertByTime e acc) l acc)
               (acc ++ l)).
  { induction l as [|e l IH]; intros acc; simpl.
    - rewrite app_nil_r. reflexivity.
    - rewrite IH, insertByTime_perm. apply Permutation_middle. }
  exact (H []).
Qed.

Lemma filter_split_perm {A : Type} (p : A -> bool) (l : list A) :
  Permutation l (filter p l ++ filter (fun x => negb (p x)) l).
Proof.
  induction l as [|a l IH]; simpl; [reflexivity|].
  destruct (p a); simpl.
  - apply perm_skip. exact IH.
  - rewrite IH at 1. apply Permutation_middle.
Qed.

Lemma windowTest_inWindow (ws we : Z) (tickMode : string) (e : Raw.event) :
  (ws <=? Raw.original_timestamp e) && (Raw.original_timestamp e <? we)
  && strictEq (Raw.source_type e) (JStr tickMode) = true
  <-> inWindow ws we tickMode e.
Proof.
  unfold inWindow.
  rewrite !andb_true_iff, strictEq_true_iff, Z.leb_le, Z.ltb_lt. tauto.
Qed.

Lemma selectRawEvents_In (table : list Raw.event) (ws we : Z)
    (tickMode : string) (e : Raw.event) :
  In e (Pg.selectRawEvents table ws we tickMode)
  <-> In e table /\ inWindow ws we tickMode e.
Proof.
  unfold Pg.selectRawEvents. split.
  - intros H. apply (Permutation_in e (orderByTime_perm _)) in H.
    apply filter_In in H. destruct H as [Hin Hp].
    split; [exact Hin|]. apply windowTest_inWindow. exact Hp.
  - intros [Hin Hw].
    apply (Permutation_in e (Permutation_sym (orderByTime_perm _))).
    apply filter_In. split; [exact Hin|]. apply windowTest_inWindow. exact Hw.
Qed.

(** X5. The window query returns, in ascending time order, exactly the
    rows of the raw table whose timestamp is in [windowStart, windowEnd) and
    whose source type is the mode: the table is the fetched rows together
    with rows that all fail that test. *)
Theorem selectRawEvents_exact (table : list Raw.event) (ws we : Z)
    (tickMode : string) :
  let fetched := Pg.selectRawEvents table ws we tickMode in
  Sorted Z.le (map Raw.original_timestamp fetched)
  /\ (forall e, In e fetched <-> In e table /\ inWindow ws we tickMode e)
  /\ exists others,
       Permutation table (fetched ++ others)
       /\ Forall (fun e => ~ inWindow ws we tickMode e) others.
Proof.
  intros fetched. split; [apply selectRawEvents_sorted|].
  split; [apply selectRawEvents_In|].
  subst fetched. unfold Pg.selectRawEvents.
  set (p := fun e => (ws <=? Raw.original_timestamp e)
                     && (Raw.original_timestamp e <? we)
                     && strictEq (Raw.source_type e) (JStr tickMode)).
  exists (filter (fun x => negb (p x)) table). split.
  - rewrite orderByTime_perm. apply filter_split_perm.
  - apply Forall_forall. intros e He Hw.
    apply filter_In in He. destruct He as [_ Hn].
    apply windowTest_inWindow in Hw. fold (p e) in Hw.
    rewrite Hw in Hn. discriminate.
Qed.

Lemma processTick_unfold (tz : JsDate.zone) (now : Z) (db : database) :
  processTick tz now db
  = match eventsOfTick tz now db with
    | [] => db
    | _ :: _ =>
        match writeSegments (modeOfTick tz now) (startOfWindow tz now)
                (timeOfTick tz now) (segmentsOfTick tz now db)
                (dev_session_logs db) with
        | Some logs => withSessionLogs db logs
        | None => db
        end
    end.
Proof. reflexivity. Qed.

(** X6. When no row of the raw table has its timestamp in the window of
    the tick together with the mode of the tick as source type, the tick
    returns the database as it found it. *)
Theorem idle_tick_changes_nothing (tz : JsDate.zone) (now : Z) (db : database) :
  Forall (fun e => ~ inWindow (startOfWindow tz now) (timeOfTick tz now)
                       (modeOfTick tz now) e)
         (dev_transcripts_raw db) ->
  processTick tz now db = db.
Proof.
  intros Hnone. rewrite processTick_unfold.
  destruct (eventsOfTick tz now db) as [|e l] eqn:Hev; [reflexivity|].
  exfalso.
  assert (Hin : In e (eventsOfTick tz now db)) by (rewrite Hev; left; reflexivity).
  apply selectRawEvents_In in Hin.
  destruct Hin as [Hin Hw]. rewrite Forall_forall in Hnone.
  exact (Hnone e Hin Hw).
Qed.

End QueryLaws.

Section IdleWindow.

#[local] Existing Instance Scenario.builtins.

Lemma idle_tick_changes_nothing_witness :
  Forall (fun e => ~ Laws.inWindow (Laws.startOfWindow JsDate.utc Replay.later)
                       (Laws.timeOfTick JsDate.utc Replay.later)
                       (Laws.modeOfTick JsDate.utc Replay.later) e)
         (dev_transcripts_raw Scenario.db)
  /\ Chad.processTick JsDate.utc Replay.later Scenario.db = Scenario.db.
Proof.
  assert (H : Forall (fun e => ~ Laws.inWindow (Laws.startOfWindow JsDate.utc Replay.later)
                                  (Laws.timeOfTick JsDate.utc Replay.later)
                                  (Laws.modeOfTick JsDate.utc Replay.later) e)
                     (dev_transcripts_raw Scenario.db)).
  { repeat constructor; intros [_ Hm]; vm_compute in Hm; discriminate Hm. }
  exact (conj H (idle_tick_changes_nothing JsDate.utc Replay.later Scenario.db H)).
Defined.

End IdleWindow.

(** ** Which tick fetches an event *)

Section TilingLaws.
Import Js JsDate TimeAligner Laws.

Variable tza : Z.

Lemma eventsOfTick_onQuarter (T : Z) (db : database) (e : Raw.event) (m : string) :
  onQuarter (fixed tza) T ->
  Raw.source_type e = JStr m ->
  In e (eventsOfTick (fixed tza) T db)
  <-> In e (dev_transcripts_raw db)
      /\ modeFor (fixed tza) T = m
      /\ T - 1800000 <= Raw.original_timestamp e < T.
Proof.
  intros Hq Hm. unfold eventsOfTick. rewrite selectRawEvents_In.
  unfold inWindow, modeOfTick, startOfWindow, timeOfTick.
  unfold onQuarter in Hq. rewrite Hq, Hm.
  change (30 * 60 * 1000) with 1800000.
  split.
  - intros (Hin & Hw & Hs). injection Hs as Hs. auto.
  - intros (Hin & Hs & Hw). rewrite Hs. auto.
Qed.

(** X3. On a host whose local time is at a fixed offset from UTC, a raw
    event whose source type is 'internal' or 'external' is fetched by the
    tick of exactly one quarter-hour boundary: there is one boundary whose
    tick has the event in the rows it fetches, and no other boundary's tick
    fetches it. *)
Theorem each_event_in_one_tick (db : database) (e : Raw.event) :
  In e (dev_transcripts_raw db) ->
  Raw.source_type e = JStr "internal" \/ Raw.source_type e = JStr "external" ->
  exists T,
    (onQuarter (fixed tza) T /\ In e (eventsOfTick (fixed tza) T db))
    /\ forall T',
         onQuarter (fixed tza) T' /\ In e (eventsOfTick (fixed tza) T' db) ->
         T' = T.
Proof.
  intros Hin Hsrc.
  assert (Hm : exists m, (m = "internal" \/ m = "external")
                         /\ Raw.source_type e = JStr m).
  { destruct Hsrc as [H | H]; eauto. }
  destruct Hm as (m & Hm & He).
  destruct (one_window_per_mode tza (Raw.original_timestamp e) m Hm)
    as (T & (Hq & Hmode & Hw) & Huniq).
  exists T. split.
  - split; [exact Hq|].
    apply (eventsOfTick_onQuarter T db e m Hq He). auto.
  - intros T' (Hq' & Hin').
    apply (eventsOfTick_onQuarter T' db e m Hq' He) in Hin'.
    destruct Hin' as (_ & Hmode' & Hw'). apply Huniq. auto.
Qed.

End TilingLaws.

Lemma each_event_in_one_tick_witness :
  In Scenario.e1 (dev_transcripts_raw Scenario.db)
  /\ (Raw.source_type Scenario.e1 = Js.JStr "internal"
      \/ Raw.source_type Scenario.e1 = Js.JStr "external")
  /\ exists T,
       (Laws.onQuarter (JsDate.fixed 0) T
        /\ In Scenario.e1 (Laws.eventsOfTick (JsDate.fixed 0) T Scenario.db))
       /\ forall T',
            Laws.onQuarter (JsDate.fixed 0) T'
            /\ In Scenario.e1 (Laws.eventsOfTick (JsDate.fixed 0) T' Scenario.db) ->
            T' = T.
Proof.
  assert (H1 : In Scenario.e1 (dev_transcripts_raw Scenario.db))
    by (left; reflexivity).
  assert (H2 : Raw.source_type Scenario.e1 = Js.JStr "internal"
               \/ Raw.source_type Scenario.e1 = Js.JStr "external")
    by (left; reflexivity).
  exact (conj H1 (conj H2 (each_event_in_one_tick 0 Scenario.db Scenario.e1 H1 H2))).
Defined.

(** ** Segments as maximal runs *)

Section RunLaws.
Import Js Chad Spec Laws.

Context {builtins : PcTag.Builtins}.

Variable client : database.
Variable tickMode : string.

Lemma groupRuns_head (key : Raw.event -> jsval) (e : Raw.event) (l : list Raw.event) :
  exists run rest, groupRuns key (e :: l) = (e :: run) :: rest.
Proof.
  simpl. destruct (groupRuns key l) as [|[|f run] rest].
  - exists [], []. reflexivity.
  - exists [], rest. reflexivity.
  - destruct (strictEq (key e) (key f)).
    + exists (f :: run), rest. reflexivity.
    + exists [], ((f :: run) :: rest). reflexivity.
Qed.

Lemma attach_own_key (key : Raw.event -> jsval) (e : Raw.event) (l : list Raw.event) :
  attach key (key e) [e] (groupRuns key l) = groupRuns key (e :: l).
Proof.
  simpl. destruct l as [|a l]; [reflexivity|].
  destruct (groupRuns_head key a l) as (run & rest & ->). simpl.
  destruct (strictEq (key e) (key a)); reflexivity.
Qed.

Lemma attach_same_key (key : Raw.event -> jsval) (cur : list Raw.event)
    (e : Raw.event) (l : list Raw.event) :
  attach key (key e) (cur ++ [e]) (groupRuns key l)
  = attach key (key e) cur (groupRuns key (e :: l)).
Proof.
  destruct (groupRuns_head key e l) as (run & rest & Hg).
  rewrite <- attach_own_key in Hg |- *.
  unfold attach at 2 3. unfold attach in Hg.
  destruct (groupRuns key l) as [|[|f r] rs]; simpl.
  - rewrite (proj2 (strictEq_true_iff (key e) (key e)) eq_refl). reflexivity.
  - rewrite (proj2 (strictEq_true_iff (key e) (key e)) eq_refl). reflexivity.
  - destruct (strictEq (key e) (key f)); simpl;
      rewrite (proj2 (strictEq_true_iff (key e) (key e)) eq_refl);
      rewrite <- ?app_assoc; reflexivity.
Qed.

Lemma attach_other_key (key : Raw.event -> jsval) (k : jsval)
    (cur : list Raw.event) (e : Raw.event) (l : list Raw.event) :
  strictEq k (key e) = false ->
  attach key k cur (groupRuns key (e :: l)) = cur :: groupRuns key (e :: l).
Proof.
  intros Hk. destruct (groupRuns_head key e l) as (run & rest & ->).
  simpl. rewrite Hk. reflexivity.
Qed.

(** From a state with an open segment the loop and the flush produce the
    closed segments, then the runs of the remaining events with the open
    segment's events in front. *)
Lemma loop_runs (l : list Raw.event) (st : loopState) (cur : segment) :
  currentSegment st = Some cur -> events cur <> [] ->
  map events (flushLast (fold_left (loopBody client tickMode) l st))
  = map events (segments st)
    ++ attach (keyOf client) (projectId cur) (events cur)
         (groupRuns (keyOf client) l).
Proof.
  revert st cur. induction l as [|e l IH]; intros st cur Hcur Hne.
  - simpl. unfold flushLast. rewrite Hcur.
    destruct (events cur) as [|a evs] eqn:Hev; [contradiction|].
    destruct (lastOf_cons_some a evs) as [y ->].
    rewrite map_app. simpl. rewrite Hev. reflexivity.
  - cbn [fold_left].
    destruct (strictEq (projectId cur) (keyOf client e)) eqn:Heq.
    + rewrite (IH (loopBody client tickMode st e) (pushEvent cur e)).
      * unfold loopBody. rewrite Hcur. unfold keyOf in Heq. rewrite Heq.
        cbn [segments projectId pushEvent events].
        apply strictEq_true_iff in Heq. fold (keyOf client e) in Heq.
        rewrite Heq. rewrite attach_same_key. reflexivity.
      * unfold loopBody. rewrite Hcur. unfold keyOf in Heq. rewrite Heq.
        reflexivity.
      * simpl. destruct (events cur); discriminate.
    + rewrite (IH (loopBody client tickMode st e)
                 (pushEvent (startSegment tickMode (contextOf client e) e) e)).
      * unfold loopBody. rewrite Hcur. unfold keyOf in Heq. rewrite Heq.
        cbn [segments projectId pushEvent startSegment events setSegmentEnd].
        fold (keyOf client e) in Heq |- *.
        rewrite (attach_other_key _ _ _ _ _ Heq).
        rewrite map_app, <- app_assoc. cbn [map events setSegmentEnd app].
        rewrite (attach_own_key (keyOf client) e l). reflexivity.
      * unfold loopBody. rewrite Hcur. unfold keyOf in Heq. rewrite Heq.
        reflexivity.
      * simpl. discriminate.
Qed.

(** X7. The event lists of the segments are exactly the maximal runs of
    consecutive input events with the same attribution key, in input order:
    nothing is dropped, reordered or split further, and the empty input
    gives no segment. *)
Theorem segments_are_maximal_runs (rawEvents : list Raw.event) :
  map events (buildSegments client tickMode rawEvents)
  = groupRuns (keyOf client) rawEvents.
Proof.
  destruct rawEvents as [|e l]; [reflexivity|].
  unfold buildSegments. cbn [fold_left].
  rewrite (loop_runs l _ (pushEvent (startSegment tickMode (contextOf client e) e) e)).
  - cbn [loopBody currentSegment segments map app projectId pushEvent
           startSegment events].
    fold (keyOf client e). apply attach_own_key.
  - reflexivity.
  - simpl. discriminate.
Qed.

Lemma orElse_truthy (a b : jsval) : truthy b = true -> truthy (orElse a b) = true.
Proof. unfold orElse. intros Hb. destruct (truthy a) eqn:Ha; assumption. Qed.

(** X16. A segment keeps what it was opened with: its start, device tag,
    key, slug, user and lane are those computed from its first event and
    that event's context, whatever events join it later; every event of the
    segment resolves to the segment's key; and its version list is the
    non-null [context_version] values of its events, in order. *)
Theorem segment_header_from_first_event (rawEvents : list Raw.event)
    (seg : segment) :
  In seg (buildSegments client tickMode rawEvents) ->
  exists first rest,
    events seg = first :: rest
    /\ segmentStart seg = Raw.original_timestamp first
    /\ pcTag seg = Raw.pc_tag first
    /\ projectId seg = keyOf client first
    /\ projectSlug seg = projectSlugOf (contextOf client first)
    /\ userId seg
       = orElse (opt Ctx.user_id (contextOf client first)) (Raw.user_id first)
    /\ lane seg
       = orElse (orElse (opt Ctx.mode (contextOf client first)) (Raw.raw_mode first))
           (JStr tickMode)
    /\ mode seg = tickMode
    /\ Forall (fun e => keyOf client e = projectId seg) (events seg)
    /\ contextVersions seg = versionsOf (events seg).
Proof.
  intros Hin.
  pose proof (buildSegments_wellFormed client tickMode rawEvents) as Hwf.
  rewrite Forall_forall in Hwf.
  destruct (Hwf seg Hin) as (f & rest & x & -> & Hkeys).
  exists f, rest. cbn.
  repeat (split; [reflexivity|]). split; [|reflexivity].
  constructor; [reflexivity|exact Hkeys].
Qed.

End RunLaws.

Section RunsOfTheWindow.

#[local] Existing Instance Scenario.builtins.

Lemma segment_header_from_first_event_witness :
  In Scenario.firstSegment
    (Chad.buildSegments Scenario.db "internal" Scenario.events)
  /\ exists first rest,
       Chad.events Scenario.firstSegment = first :: rest
       /\ Chad.segmentStart Scenario.firstSegment = Raw.original_timestamp first
       /\ Chad.pcTag Scenario.firstSegment = Raw.pc_tag first
       /\ Chad.projectId Scenario.firstSegment = Spec.keyOf Scenario.db first
       /\ Chad.projectSlug Scenario.firstSegment
          = Chad.projectSlugOf (Chad.contextOf Scenario.db first)
       /\ Chad.userId Scenario.firstSegment
          = Js.orElse (Chad.opt Ctx.user_id (Chad.contextOf Scenario.db first))
              (Raw.user_id first)
       /\ Chad.lane Scenario.firstSegment
          = Js.orElse
              (Js.orElse (Chad.opt Ctx.mode (Chad.contextOf Scenario.db first))
                 (Raw.raw_mode first))
              (Js.JStr "internal")
       /\ Chad.mode Scenario.firstSegment = "internal"
       /\ Forall (fun e => Spec.keyOf Scenario.db e
                           = Chad.projectId Scenario.firstSegment)
                 (Chad.events Scenario.firstSegment)
       /\ Chad.contextVersions Scenario.firstSegment
          = Spec.versionsOf (Chad.events Scenario.firstSegment).
Proof.
  exact (conj firstSegment_built
           (segment_header_from_first_event Scenario.db "internal"
              Scenario.events Scenario.firstSegment firstSegment_built)).
Defined.

End RunsOfTheWindow.

(** ** What a tick stores *)

Section TickLaws.
Import Js Chad Spec Laws.

Context {builtins : PcTag.Builtins}.

(** X8. Every segment of a tick has a non-null, non-empty attribution key
    and slug and a non-null, non-empty lane, and carries the mode of the
    tick, which is 'internal' or 'external'. *)
Theorem tick_segments_attributed (tz : JsDate.zone) (now : Z) (db : database) :
  Forall (fun s =>
            truthy (projectId s) = true
            /\ truthy (projectSlug s) = true
            /\ truthy (lane s) = true
            /\ mode s = modeOfTick tz now
            /\ (mode s = "internal" \/ mode s = "external"))
         (segmentsOfTick tz now db).
Proof.
  unfold segmentsOfTick.
  pose proof (buildSegments_wellFormed db (modeOfTick tz now) (eventsOfTick tz now db))
    as Hwf.
  revert Hwf. apply Forall_impl. intros s (f & rest & x & -> & _).
  cbn [segmentOf startSegment projectId projectSlug lane mode].
  assert (Hm : modeOfTick tz now = "internal" \/ modeOfTick tz now = "external")
    by apply modeFor_values.
  split; [apply orElse_truthy; reflexivity|].
  split; [apply orElse_truthy; reflexivity|].
  split; [apply orElse_truthy; destruct Hm as [-> | ->]; reflexivity|].
  split; [reflexivity|exact Hm].
Qed.

Lemma unitsOf_replaceDisallowed (s : PcTag.units) :
  Forall (fun u => PcTag.allowed u = true)
         (PcTag.unitsOf (PcTag.replaceDisallowed s)).
Proof.
  induction s as [|u s IH]; [constructor|].
  cbn [PcTag.replaceDisallowed]. fold (replaced u).
  constructor; [exact (replaced_inClass u)|exact IH].
Qed.

Lemma replaceDisallowed_unitsOf (s : PcTag.units) :
  PcTag.replaceDisallowed (PcTag.unitsOf (PcTag.replaceDisallowed s))
  = PcTag.replaceDisallowed s.
Proof.
  induction s as [|u s IH]; [reflexivity|].
  cbn [PcTag.replaceDisallowed]. fold (replaced u).
  change (PcTag.unitsOf (String (replaced u) (PcTag.replaceDisallowed s)))
    with (Z.of_nat (nat_of_ascii (replaced u))
          :: PcTag.unitsOf (PcTag.replaceDisallowed s)).
  cbn [PcTag.replaceDisallowed]. rewrite IH.
  pose proof (replaced_inClass u) as Hc. unfold inClass in Hc. rewrite Hc.
  rewrite Nat2Z.id, ascii_nat_embedding. reflexivity.
Qed.

(** X9. Given that the host's [toLowerCase] leaves a string of units of
    [a-z0-9-] as it is and returns the empty string only for the empty
    string, normalising a normalised tag changes nothing, and the normalised
    tag is never empty. *)
Theorem normalizePcTag_stable (tag : option PcTag.units) :
  (forall s, Forall (fun u => PcTag.allowed u = true) s -> PcTag.toLowerCase s = s) ->
  (forall s, PcTag.toLowerCase s = [] -> s = []) ->
  PcTag.normalizePcTag (Some (PcTag.unitsOf (PcTag.normalizePcTag tag)))
  = PcTag.normalizePcTag tag
  /\ PcTag.normalizePcTag tag <> "".
Proof.
  intros Hkeep Hnonempty.
  assert (Hshape : exists u l,
             PcTag.normalizePcTag tag = PcTag.replaceDisallowed (u :: l)).
  { destruct tag as [[|u s]|].
    - exists 115, (List.tl (PcTag.unitsOf "studio-terminals")). reflexivity.
    - unfold PcTag.normalizePcTag.
      destruct (PcTag.toLowerCase (u :: s)) as [|v l] eqn:Hl.
      + apply Hnonempty in Hl. discriminate.
      + exists v, l. reflexivity.
    - exists 115, (List.tl (PcTag.unitsOf "studio-terminals")). reflexivity. }
  destruct Hshape as (u & l & ->). split; [|discriminate].
  pose proof (unitsOf_replaceDisallowed (u :: l)) as Hall.
  pose proof (replaceDisallowed_unitsOf (u :: l)) as Hback.
  destruct (PcTag.unitsOf (PcTag.replaceDisallowed (u :: l))) as [|v vs] eqn:Hu;
    [discriminate|].
  unfold PcTag.normalizePcTag. rewrite (Hkeep _ Hall). exact Hback.
Qed.

Lemma lookup_key (k : string) (table : list Log.row) (r : Log.row) :
  lookup k table = Some r -> Log.idempotency_key r = k.
Proof.
  unfold lookup. intros H. apply find_some in H. destruct H as [_ H].
  apply String.eqb_eq. exact H.
Qed.

Lemma grows_refl (r : Log.row) : grows r r.
Proof.
  unfold grows. repeat (split; [first [reflexivity | lia]|]).
  split; [exists []; rewrite app_nil_r; reflexivity|].
  destruct (Log.context_version_max r) as [a|]; [|exact I].
  exists a. split; [reflexivity|lia].
Qed.

Lemma grows_trans (a b c : Log.row) : grows a b -> grows b c -> grows a c.
Proof.
  unfold grows.
  intros (A1 & A2 & A3 & A4 & A5 & A6 & A7 & A8 & A9 & A10 & A11 & A12 & A13
          & A14 & A15 & A16 & A17 & A18 & (m1 & A19) & A20)
         (B1 & B2 & B3 & B4 & B5 & B6 & B7 & B8 & B9 & B10 & B11 & B12 & B13
          & B14 & B15 & B16 & B17 & B18 & (m2 & B19) & B20).
  repeat (split; [first [congruence | lia]|]).
  split; [exists (m1 ++ m2); rewrite B19, A19, app_assoc; reflexivity|].
  destruct (Log.context_version_max a) as [x|]; [|exact I].
  destruct A20 as (y & Hy & Hxy). rewrite Hy in B20.
  destruct B20 as (z & Hz & Hyz). exists z. split; [exact Hz|lia].
Qed.

Lemma onConflict_grows (old excluded : Log.row) :
  0 <= Log.raw_count excluded -> 0 <= Log.message_count excluded ->
  grows old (onConflict old excluded).
Proof.
  intros Hc Hm. unfold grows. cbn.
  repeat (split; [first [reflexivity | lia]|]).
  split; [exists (Log.raw_refs excluded); reflexivity|].
  destruct (Log.context_version_max old) as [a|]; [|exact I].
  destruct (Log.context_version_max excluded) as [b|]; simpl.
  - exists (Z.max a b). split; [reflexivity|lia].
  - exists a. split; [reflexivity|lia].
Qed.

Lemma upsert_grows (r : Log.row) (table : list Log.row) (k : string) (old : Log.row) :
  0 <= Log.raw_count r -> 0 <= Log.message_count r ->
  lookup k table = Some old ->
  exists new, lookup k (upsert r table) = Some new /\ grows old new.
Proof.
  intros Hc Hm Hold.
  destruct (String.eqb_spec k (Log.idempotency_key r)) as [-> | Hk].
  - rewrite lookup_upsert_same, Hold.
    exists (onConflict old r). split; [reflexivity|].
    apply onConflict_grows; assumption.
  - rewrite (lookup_upsert_other k r table Hk).
    exists old. split; [exact Hold|apply grows_refl].
Qed.

Lemma writeSegments_grows (tickMode : string) (ws we : Z) (segs : list segment)
    (table table' : list Log.row) (k : string) (old : Log.row) :
  writeSegments tickMode ws we segs table = Some table' ->
  lookup k table = Some old ->
  exists new, lookup k table' = Some new /\ grows old new.
Proof.
  revert table old. induction segs as [|seg segs IH]; intros table old; simpl.
  - intros [= <-] Hold. exists old. split; [exact Hold|apply grows_refl].
  - destruct (segmentEnd seg) as [segEnd|]; [|discriminate].
    intros Hw Hold.
    destruct (upsert_grows (insertedRow tickMode ws we seg segEnd) table k old)
      as (mid & Hmid & Hg1); [simpl; lia|simpl; lia|exact Hold|].
    destruct (IH _ mid Hw Hmid) as (new & Hnew & Hg2).
    exists new. split; [exact Hnew|exact (grows_trans _ _ _ Hg1 Hg2)].
Qed.

(** X11. A row stored before a tick is still stored under its key after
    the tick; the columns outside the DO UPDATE SET list, among them
    [first_ts], [segment_start], [context_version_min] and [status], are
    unchanged; [segment_end], [last_ts], [raw_count], [message_count] and
    [context_version_max] have not decreased; and [raw_refs] has only been
    extended at its end. *)
Theorem tick_rows_only_grow (tz : JsDate.zone) (now : Z) (db : database) (k : string)
    (old : Log.row) :
  lookup k (dev_session_logs db) = Some old ->
  exists new,
    lookup k (dev_session_logs (processTick tz now db)) = Some new
    /\ grows old new.
Proof.
  intros Hold. rewrite processTick_unfold.
  destruct (eventsOfTick tz now db) as [|e l];
    [exists old; split; [exact Hold|apply grows_refl]|].
  destruct (writeSegments _ _ _ _ _) as [logs|] eqn:Hw;
    [|exists old; split; [exact Hold|apply grows_refl]].
  exact (writeSegments_grows _ _ _ _ _ _ k old Hw Hold).
Qed.

Lemma writeSegments_NoDup (tickMode : string) (ws we : Z) (segs : list segment)
    (table table' : list Log.row) :
  writeSegments tickMode ws we segs table = Some table' ->
  NoDup (map Log.idempotency_key table) ->
  NoDup (map Log.idempotency_key table').
Proof.
  revert table. induction segs as [|seg segs IH]; intros table; simpl.
  - intros [= <-] H. exact H.
  - destruct (segmentEnd seg) as [segEnd|]; [|discriminate].
    intros Hw Hnd. apply (IH _ Hw). apply upsert_NoDup. exact Hnd.
Qed.

(** X10. When no two rows of [dev_session_logs] share an idempotency key
    before a tick, no two rows share one after it. *)
Theorem tick_keeps_keys_distinct (tz : JsDate.zone) (now : Z) (db : database) :
  NoDup (map Log.idempotency_key (dev_session_logs db)) ->
  NoDup (map Log.idempotency_key (dev_session_logs (processTick tz now db))).
Proof.
  intros Hnd. rewrite processTick_unfold.
  destruct (eventsOfTick tz now db) as [|e l]; [exact Hnd|].
  destruct (writeSegments _ _ _ _ _) as [logs|] eqn:Hw; [|exact Hnd].
  exact (writeSegments_NoDup _ _ _ _ _ _ Hw Hnd).
Qed.

End TickLaws.

(** ** Keys and counts of a tick *)

Section KeyLaws.
Import Js Chad Spec Laws.

Context {builtins : PcTag.Builtins}.

Lemma writeSegments_lookup_other (tickMode : string) (ws we : Z)
    (segs : list segment) (table table' : list Log.row) (k : string) :
  writeSegments tickMode ws we segs table = Some table' ->
  ~ In k (segmentKeys tickMode segs) ->
  lookup k table' = lookup k table.
Proof.
  revert table. induction segs as [|seg segs IH]; intros table; simpl.
  - intros [= <-] _. reflexivity.
  - destruct (segmentEnd seg) as [segEnd|]; [|discriminate].
    simpl. intros Hw Hk. rewrite (IH _ Hw) by tauto.
    apply lookup_upsert_other. simpl. intros ->. tauto.
Qed.

Lemma upsert_keeps_present (r : Log.row) (table : list Log.row) (k : string) :
  (exists old, lookup k table = Some old) ->
  exists new, lookup k (upsert r table) = Some new.
Proof.
  intros [old Hold].
  destruct (String.eqb_spec k (Log.idempotency_key r)) as [-> | Hk].
  - rewrite lookup_upsert_same. eexists. reflexivity.
  - rewrite (lookup_upsert_other k r table Hk). exists old. exact Hold.
Qed.

Lemma writeSegments_keeps_present (tickMode : string) (ws we : Z)
    (segs : list segment) (table table' : list Log.row) (k : string) :
  writeSegments tickMode ws we segs table = Some table' ->
  (exists old, lookup k table = Some old) ->
  exists new, lookup k table' = Some new.
Proof.
  revert table. induction segs as [|seg segs IH]; intros table; simpl.
  - intros [= <-] H. exact H.
  - destruct (segmentEnd seg) as [segEnd|]; [|discriminate].
    intros Hw Hold. apply (IH _ Hw). apply upsert_keeps_present. exact Hold.
Qed.

Lemma writeSegments_lookup_present (tickMode : string) (ws we : Z)
    (segs : list segment) (table table' : list Log.row) (k : string) :
  writeSegments tickMode ws we segs table = Some table' ->
  In k (segmentKeys tickMode segs) ->
  exists new, lookup k table' = Some new.
Proof.
  revert table. induction segs as [|seg segs IH]; intros table; simpl.
  - intros _ [].
  - destruct (segmentEnd seg) as [segEnd|]; [|discriminate].
    simpl. intros Hw [<- | Hin]; [|exact (IH _ Hw Hin)].
    apply (writeSegments_keeps_present _ _ _ _ _ _ _ Hw).
    pose proof (lookup_upsert_same (insertedRow tickMode ws we seg segEnd) table) as H.
    simpl Log.idempotency_key in H. eexists. exact H.
Qed.

Lemma tick_writes (tz : JsDate.zone) (now : Z) (db : database) :
  exists logs,
    writeSegments (modeOfTick tz now) (startOfWindow tz now) (timeOfTick tz now)
      (segmentsOfTick tz now db) (dev_session_logs db) = Some logs.
Proof. apply writeSegments_buildSegments. Qed.

(** X12. A key under which the tick writes no segment finds after the
    tick what it found before: the row it had, or nothing. *)
Theorem tick_leaves_other_keys (tz : JsDate.zone) (now : Z) (db : database) (k : string) :
  ~ In k (keysOfTick tz now db) ->
  lookup k (dev_session_logs (processTick tz now db))
  = lookup k (dev_session_logs db).
Proof.
  intros Hk. rewrite processTick_unfold.
  destruct (eventsOfTick tz now db) as [|e l]; [reflexivity|].
  destruct (writeSegments _ _ _ _ _) as [logs|] eqn:Hw; [|reflexivity].
  exact (writeSegments_lookup_other _ _ _ _ _ _ k Hw Hk).
Qed.

(** X13. Every idempotency key under which the tick writes a segment is
    found in [dev_session_logs] after the tick. *)
Theorem tick_stores_its_keys (tz : JsDate.zone) (now : Z) (db : database) (k : string) :
  In k (keysOfTick tz now db) ->
  exists r,
    lookup k (dev_session_logs (processTick tz now db)) = Some r
    /\ Log.idempotency_key r = k.
Proof.
  intros Hk.
  assert (H : exists r, lookup k (dev_session_logs (processTick tz now db)) = Some r).
  { rewrite processTick_unfold. unfold keysOfTick, segmentsOfTick in Hk.
    destruct (tick_writes tz now db) as [logs Hw].
    unfold segmentsOfTick in *.
    destruct (eventsOfTick tz now db) as [|e l]; [destruct Hk|].
    rewrite Hw. exact (writeSegments_lookup_present _ _ _ _ _ _ k Hw Hk). }
  destruct H as [r Hr]. exists r. split; [exact Hr|exact (lookup_key _ _ _ Hr)].
Qed.

Lemma totalRawCount_upsert (r : Log.row) (table : list Log.row) :
  totalRawCount (upsert r table) = totalRawCount table + Log.raw_count r.
Proof.
  induction table as [|old rest IH]; simpl; [lia|].
  destruct (String.eqb (Log.idempotency_key old) (Log.idempotency_key r)); simpl; lia.
Qed.

Lemma writeSegments_totalRawCount (tickMode : string) (ws we : Z)
    (segs : list segment) (table table' : list Log.row) :
  writeSegments tickMode ws we segs table = Some table' ->
  totalRawCount table'
  = totalRawCount table + Z.of_nat (List.length (List.concat (map events segs))).
Proof.
  revert table. induction segs as [|seg segs IH]; intros table; simpl.
  - intros [= <-]. lia.
  - destruct (segmentEnd seg) as [segEnd|]; [|discriminate].
    intros Hw. rewrite (IH _ Hw), totalRawCount_upsert, length_app. simpl. lia.
Qed.

(** X14. A tick raises the sum of [raw_count] over [dev_session_logs] by
    exactly the number of raw events it fetched, whether their segments meet
    stored rows or not. *)
Theorem tick_counts_every_event (tz : JsDate.zone) (now : Z) (db : database) :
  totalRawCount (dev_session_logs (processTick tz now db))
  = totalRawCount (dev_session_logs db)
    + Z.of_nat (List.length (eventsOfTick tz now db)).
Proof.
  rewrite processTick_unfold.
  destruct (tick_writes tz now db) as [logs Hw]. unfold segmentsOfTick in *.
  destruct (eventsOfTick tz now db) as [|e l] eqn:Hev; [simpl; lia|].
  rewrite Hw. cbn [withSessionLogs dev_session_logs].
  rewrite (writeSegments_totalRawCount _ _ _ _ _ _ Hw).
  assert (Hne : e :: l <> []) by discriminate.
  rewrite (proj1 (buildSegments_spec db (modeOfTick tz now) (e :: l) Hne)).
  reflexivity.
Qed.

(** X15. A tick that fetched events never rolls back: every segment that
    reaches the writer has a segment end, the writer returns a table, and
    the tick commits that table as [dev_session_logs]. *)
Theorem tick_with_events_commits (tz : JsDate.zone) (now : Z) (db : database) :
  eventsOfTick tz now db <> [] ->
  Forall (fun s => segmentEnd s <> None) (segmentsOfTick tz now db)
  /\ exists logs,
       writeSegments (modeOfTick tz now) (startOfWindow tz now)
         (timeOfTick tz now) (segmentsOfTick tz now db)
         (dev_session_logs db) = Some logs
       /\ processTick tz now db = withSessionLogs db logs.
Proof.
  intros Hne. split.
  - exact (proj2 (proj2 (proj2 (proj2
             (buildSegments_spec db (modeOfTick tz now) _ Hne))))).
  - destruct (tick_writes tz now db) as [logs Hw]. exists logs.
    split; [exact Hw|]. rewrite processTick_unfold, Hw.
    destruct (eventsOfTick tz now db); [contradiction|reflexivity].
Qed.

End KeyLaws.

(** ** The laws on the worked window *)

Section ReplayedWindow.
Import Js Chad Spec Laws.

#[local] Existing Instance Scenario.builtins.

Lemma tick_rows_only_grow_witness :
  lookup (Log.idempotency_key Replay.storedP1)
    (dev_session_logs (Scenario.withLateEvents Replay.afterFirst))
  = Some Replay.storedP1
  /\ exists new,
       lookup (Log.idempotency_key Replay.storedP1)
         (dev_session_logs
            (processTick JsDate.utc Scenario.now (Scenario.withLateEvents Replay.afterFirst)))
       = Some new
       /\ grows Replay.storedP1 new.
Proof.
  assert (H : lookup (Log.idempotency_key Replay.storedP1)
                (dev_session_logs (Scenario.withLateEvents Replay.afterFirst))
              = Some Replay.storedP1) by (vm_compute; reflexivity).
  exact (conj H (tick_rows_only_grow JsDate.utc Scenario.now
                   (Scenario.withLateEvents Replay.afterFirst)
                   (Log.idempotency_key Replay.storedP1) Replay.storedP1 H)).
Defined.

Lemma tick_keeps_keys_distinct_witness :
  NoDup (map Log.idempotency_key (dev_session_logs Replay.afterFirst))
  /\ NoDup (map Log.idempotency_key
              (dev_session_logs (processTick JsDate.utc Scenario.now Replay.afterFirst))).
Proof.
  assert (H : NoDup (map Log.idempotency_key (dev_session_logs Replay.afterFirst))).
  { vm_compute. constructor; [intros [H | []]; discriminate H|].
    constructor; [intros []|constructor]. }
  exact (conj H (tick_keeps_keys_distinct JsDate.utc Scenario.now Replay.afterFirst H)).
Defined.

Example next_window_tick_writes :
  keysOfTick JsDate.utc Replay.atEleven (Replay.withNextWindow Replay.afterFirst)
  = ["chad:internal:P2:2024-01-01T10:40:00.000Z:2024-01-01T10:40:00.000Z"]
  /\ lookup (Log.idempotency_key Replay.storedP1)
       (dev_session_logs (Replay.withNextWindow Replay.afterFirst))
     = Some Replay.storedP1.
Proof. vm_compute. split; reflexivity. Qed.

Lemma tick_leaves_other_keys_witness :
  ~ In (Log.idempotency_key Replay.storedP1)
       (keysOfTick JsDate.utc Replay.atEleven (Replay.withNextWindow Replay.afterFirst))
  /\ lookup (Log.idempotency_key Replay.storedP1)
       (dev_session_logs
          (processTick JsDate.utc Replay.atEleven
             (Replay.withNextWindow Replay.afterFirst)))
     = lookup (Log.idempotency_key Replay.storedP1)
         (dev_session_logs (Replay.withNextWindow Replay.afterFirst)).
Proof.
  assert (H : ~ In (Log.idempotency_key Replay.storedP1)
                (keysOfTick JsDate.utc Replay.atEleven
                   (Replay.withNextWindow Replay.afterFirst)))
    by (vm_compute; intros [H | []]; discriminate H).
  exact (conj H (tick_leaves_other_keys JsDate.utc Replay.atEleven
                   (Replay.withNextWindow Replay.afterFirst)
                   (Log.idempotency_key Replay.storedP1) H)).
Defined.

Lemma lowerAscii_keeps (s : PcTag.units) :
  Forall (fun u => PcTag.allowed u = true) s -> Scenario.lowerAscii s = s.
Proof.
  induction 1 as [|u s Hu _ IH]; [reflexivity|].
  unfold Scenario.lowerAscii in *. cbn [map]. rewrite IH.
  unfold PcTag.between at 1.
  destruct (65 <=? u) eqn:H1; destruct (u <=? 90) eqn:H2; try reflexivity.
  apply Z.leb_le in H1, H2.
  unfold PcTag.allowed, PcTag.between in Hu.
  rewrite !orb_true_iff, !andb_true_iff, !Z.leb_le, Z.eqb_eq in Hu. lia.
Defined.

Lemma lowerAscii_nonempty (s : PcTag.units) : Scenario.lowerAscii s = [] -> s = [].
Proof. destruct s; [reflexivity|discriminate]. Defined.

Lemma normalizePcTag_stable_witness :
  (forall s, Forall (fun u => PcTag.allowed u = true) s -> PcTag.toLowerCase s = s)
  /\ (forall s, PcTag.toLowerCase s = [] -> s = [])
  /\ PcTag.normalizePcTag
       (Some (PcTag.unitsOf
                (PcTag.normalizePcTag (Some (PcTag.unitsOf "Dev PC_1.x")))))
     = PcTag.normalizePcTag (Some (PcTag.unitsOf "Dev PC_1.x"))
  /\ PcTag.normalizePcTag (Some (PcTag.unitsOf "Dev PC_1.x")) <> "".
Proof.
  exact (conj lowerAscii_keeps (conj lowerAscii_nonempty
           (normalizePcTag_stable (Some (PcTag.unitsOf "Dev PC_1.x"))
              lowerAscii_keeps lowerAscii_nonempty))).
Defined.

Lemma tick_stores_its_keys_witness :
  In (Log.idempotency_key Replay.storedP1) (keysOfTick JsDate.utc Scenario.now Scenario.db)
  /\ exists r,
       lookup (Log.idempotency_key Replay.storedP1)
         (dev_session_logs (processTick JsDate.utc Scenario.now Scenario.db)) = Some r
       /\ Log.idempotency_key r = Log.idempotency_key Replay.storedP1.
Proof.
  assert (H : In (Log.idempotency_key Replay.storedP1)
                (keysOfTick JsDate.utc Scenario.now Scenario.db))
    by (vm_compute; left; reflexivity).
  exact (conj H (tick_stores_its_keys JsDate.utc Scenario.now Scenario.db
                   (Log.idempotency_key Replay.storedP1) H)).
Defined.

Lemma tick_with_events_commits_witness :
  eventsOfTick JsDate.utc Scenario.now Scenario.db <> []
  /\ Forall (fun s => segmentEnd s <> None) (segmentsOfTick JsDate.utc Scenario.now Scenario.db)
  /\ exists logs,
       writeSegments (modeOfTick JsDate.utc Scenario.now) (startOfWindow JsDate.utc Scenario.now)
         (timeOfTick JsDate.utc Scenario.now) (segmentsOfTick JsDate.utc Scenario.now Scenario.db)
         (dev_session_logs Scenario.db) = Some logs
       /\ processTick JsDate.utc Scenario.now Scenario.db = withSessionLogs Scenario.db logs.
Proof.
  assert (H : eventsOfTick JsDate.utc Scenario.now Scenario.db <> [])
    by (vm_compute; discriminate).
  exact (conj H (tick_with_events_commits JsDate.utc Scenario.now Scenario.db H)).
Defined.

End ReplayedWindow.
